(** * idat_unbuilder: CRC32 engine, IDAT chunk scanner, IHDR header
    extractor and scanline unfilter engine.

    Shallow embedding of [crc32.py], [idat_unbuilder.py] and
    [lib/unfilter_decompressed_idat.py].

    Conventions.
    - A Python [int] is a [Z] (unbounded, as in Python); a byte is a [Z]
      in [0, 256) ([is_byte]); a [bytes]/[bytearray] value is a [list Z].
    - Lengths, loop counters and the image geometry handed to the unfilter
      engine are [nat]: the pipeline obtains them from unsigned fields.
      The [verbose] flag of the unfilter engine only prints and is left out.
    - A raised Python exception is a value of [exn]; code that can raise
      returns a [result]. [print] calls are diagnostics and are dropped,
      with the exception of the scanner's, which are kept as [diag]. *)

From Stdlib Require Import ZArith List Lia Bool.
Import ListNotations.

Local Open Scope Z_scope.

(** ** Bytes *)

Definition is_byte (b : Z) : Prop := 0 <= b < 256.

Definition is_bytes (l : list Z) : Prop := Forall is_byte l.

(** ** crc32.py *)

Module Crc32.

Definition is_u32 (x : Z) : Prop := 0 <= x < 2 ^ 32.

(** Python truthiness of an [int]. *)
Definition truthy (x : Z) : bool := negb (x =? 0).

(** Body of the inner [for _ in range(8)] of [calculate_crc32_standard]. *)
Definition standard_bit (polynomial crc : Z) : Z :=
  if truthy (Z.land crc 0x80000000)
  then Z.lxor (Z.shiftl crc 1) polynomial
  else Z.shiftl crc 1.

(** Body of [for byte in data] of [calculate_crc32_standard]: the mask
    is applied once per byte, after the eight shifts. *)
Definition standard_byte (polynomial crc byte : Z) : Z :=
  let crc := Z.lxor crc (Z.shiftl byte 24) in
  let crc := Nat.iter 8 (standard_bit polynomial) crc in
  Z.land crc 0xFFFFFFFF.

Definition calculate_crc32_standard
    (data : list Z) (polynomial initial_value : Z) : Z :=
  let crc := fold_left (standard_byte polynomial) data initial_value in
  Z.lxor crc initial_value.

(** Body of the inner loop of [calculate_crc32_reversed]. *)
Definition reversed_bit (polynomial crc : Z) : Z :=
  if truthy (Z.land crc 1)
  then Z.lxor (Z.shiftr crc 1) polynomial
  else Z.shiftr crc 1.

(** Body of [for byte in data] of [calculate_crc32_reversed]: no mask. *)
Definition reversed_byte (polynomial crc byte : Z) : Z :=
  let crc := Z.lxor crc byte in
  Nat.iter 8 (reversed_bit polynomial) crc.

Definition calculate_crc32_reversed
    (data : list Z) (polynomial initial_value : Z) : Z :=
  let crc := fold_left (reversed_byte polynomial) data initial_value in
  Z.lxor crc initial_value.

(** Default arguments of the two functions. *)
Definition standard_polynomial : Z := 0x04C11DB7.
Definition reversed_polynomial : Z := 0xEDB88320.
Definition default_initial_value : Z := 0xFFFFFFFF.

(** *** Reference computation

    The computation the specification words: the register is masked to
    32 bits after every shift and after every exclusive-or. *)

Definition mask32 (x : Z) : Z := Z.land x 0xFFFFFFFF.

Definition masked_standard_bit (polynomial crc : Z) : Z :=
  if truthy (Z.land crc 0x80000000)
  then mask32 (Z.lxor (mask32 (Z.shiftl crc 1)) polynomial)
  else mask32 (Z.shiftl crc 1).

Definition masked_standard_byte (polynomial crc byte : Z) : Z :=
  let crc := mask32 (Z.lxor crc (mask32 (Z.shiftl byte 24))) in
  Nat.iter 8 (masked_standard_bit polynomial) crc.

Definition masked_crc32_standard
    (data : list Z) (polynomial initial_value : Z) : Z :=
  let crc := fold_left (masked_standard_byte polynomial) data initial_value in
  mask32 (Z.lxor crc initial_value).

Definition masked_reversed_bit (polynomial crc : Z) : Z :=
  if truthy (Z.land crc 1)
  then mask32 (Z.lxor (mask32 (Z.shiftr crc 1)) polynomial)
  else mask32 (Z.shiftr crc 1).

Definition masked_reversed_byte (polynomial crc byte : Z) : Z :=
  let crc := mask32 (Z.lxor crc byte) in
  Nat.iter 8 (masked_reversed_bit polynomial) crc.

Definition masked_crc32_reversed
    (data : list Z) (polynomial initial_value : Z) : Z :=
  let crc := fold_left (masked_reversed_byte polynomial) data initial_value in
  mask32 (Z.lxor crc initial_value).

(** ASCII codes of ["123456789"]. *)
Definition check_input : list Z := [49; 50; 51; 52; 53; 54; 55; 56; 57].

End Crc32.

(** ** Python exceptions *)

Inductive exn : Type :=
| IndexError
| TypeError
| StructError
| ValueError_unknown_filter (filter_type : Z).

Inductive result (A : Type) : Type :=
| Ok (a : A)
| Raise (e : exn).

Arguments Ok {A} a.
Arguments Raise {A} e.

Definition bind {A B : Type} (r : result A) (k : A -> result B) : result B :=
  match r with
  | Ok a => k a
  | Raise e => Raise e
  end.

Notation "x <- r ;; k" := (bind r (fun x => k))
  (at level 61, r at next level, right associativity).

(** [l[i]] for an index that is not negative. *)
Definition getitem (l : list Z) (i : nat) : result Z :=
  match nth_error l i with
  | Some x => Ok x
  | None => Raise IndexError
  end.

(** [for i in range(start, start + count): st = body(i, st)]. *)
Fixpoint for_range {St : Type} (start count : nat)
    (body : nat -> St -> result St) (st : St) : result St :=
  match count with
  | O => Ok st
  | S count' => st' <- body start st ;; for_range (S start) count' body st'
  end.

(** ** lib/unfilter_decompressed_idat.py *)

Module Unfilter.
Local Open Scope nat_scope.

(** [prev_scanline] is [None] or a [bytearray]; both [None] and the
    empty [bytearray] are falsy. *)
Definition prev_truthy (prev_scanline : option (list Z)) : bool :=
  match prev_scanline with
  | Some (_ :: _) => true
  | _ => false
  end.

Definition prev_getitem (prev_scanline : option (list Z)) (i : nat) : result Z :=
  match prev_scanline with
  | Some p => getitem p i
  | None => Raise TypeError
  end.

Definition unfilter_sub (scanline : list Z) (bytes_per_pixel : nat)
    : result (list Z) :=
  for_range 0 (length scanline)
    (fun i result =>
       if i <? bytes_per_pixel then
         x <- getitem scanline i ;;
         Ok (result ++ [x])
       else
         x <- getitem scanline i ;;
         l <- getitem result (i - bytes_per_pixel) ;;
         Ok (result ++ [((x + l) mod 256)%Z]))
    [].

Definition unfilter_up (scanline : list Z) (prev_scanline : option (list Z))
    : result (list Z) :=
  if negb (prev_truthy prev_scanline) then Ok scanline
  else
    for_range 0 (length scanline)
      (fun i result =>
         x <- getitem scanline i ;;
         u <- prev_getitem prev_scanline i ;;
         Ok (result ++ [((x + u) mod 256)%Z]))
      [].

Definition unfilter_average (scanline : list Z)
    (prev_scanline : option (list Z)) (bytes_per_pixel : nat)
    : result (list Z) :=
  for_range 0 (length scanline)
    (fun i result =>
       left <- (if bytes_per_pixel <=? i
                then getitem result (i - bytes_per_pixel) else Ok 0%Z) ;;
       up <- (if prev_truthy prev_scanline
              then prev_getitem prev_scanline i else Ok 0%Z) ;;
       x <- getitem scanline i ;;
       Ok (result ++ [((x + (left + up) / 2) mod 256)%Z]))
    [].

Definition paeth_predictor (a b c : Z) : Z :=
  let p := (a + b - c)%Z in
  let pa := Z.abs (p - a) in
  let pb := Z.abs (p - b) in
  let pc := Z.abs (p - c) in
  if (pa <=? pb)%Z && (pa <=? pc)%Z then a
  else if (pb <=? pc)%Z then b
  else c.

Definition unfilter_paeth (scanline : list Z)
    (prev_scanline : option (list Z)) (bytes_per_pixel : nat)
    : result (list Z) :=
  for_range 0 (length scanline)
    (fun i result =>
       left <- (if bytes_per_pixel <=? i
                then getitem result (i - bytes_per_pixel) else Ok 0%Z) ;;
       up <- (if prev_truthy prev_scanline
              then prev_getitem prev_scanline i else Ok 0%Z) ;;
       upper_left <- (if prev_truthy prev_scanline && (bytes_per_pixel <=? i)
                      then prev_getitem prev_scanline (i - bytes_per_pixel)
                      else Ok 0%Z) ;;
       x <- getitem scanline i ;;
       Ok (result ++ [((x + paeth_predictor left up upper_left) mod 256)%Z]))
    [].

(** [reconstructed_image[-stride:]]; for [stride = 0] this is
    [reconstructed_image[0:]]. *)
Definition last_slice (stride : nat) (reconstructed_image : list Z) : list Z :=
  if stride =? 0 then reconstructed_image
  else skipn (length reconstructed_image - stride) reconstructed_image.

(** [reconstructed_image[-stride:] if reconstructed_image else None]. *)
Definition previous_scanline (stride : nat) (reconstructed_image : list Z)
    : option (list Z) :=
  match reconstructed_image with
  | [] => None
  | _ :: _ => Some (last_slice stride reconstructed_image)
  end.

(** The [if filter_type == ...] chain of the scanline loop. The source
    evaluates [prev_scanline] inside branches 2, 3 and 4; the expression
    is pure, so it is taken as an argument here. *)
Definition unfilter_dispatch (filter_type : Z) (scanline_data : list Z)
    (prev_scanline : option (list Z)) (bytes_per_pixel : nat)
    : result (list Z) :=
  if (filter_type =? 0)%Z then Ok scanline_data
  else if (filter_type =? 1)%Z then unfilter_sub scanline_data bytes_per_pixel
  else if (filter_type =? 2)%Z then unfilter_up scanline_data prev_scanline
  else if (filter_type =? 3)%Z then
    unfilter_average scanline_data prev_scanline bytes_per_pixel
  else if (filter_type =? 4)%Z then
    unfilter_paeth scanline_data prev_scanline bytes_per_pixel
  else Raise (ValueError_unknown_filter filter_type).

(** Loop state of [unfilter_scanlines]: [index] and [reconstructed_image]. *)
Definition unfilter_state : Type := nat * list Z.

(** Body of [for scanline_number in range(height)]. *)
Definition scanline_body (decompressed_data : list Z)
    (stride bytes_per_pixel : nat) (scanline_number : nat)
    (st : unfilter_state) : result unfilter_state :=
  let '(index, reconstructed_image) := st in
  filter_type <- getitem decompressed_data index ;;
  let index := index + 1 in
  let scanline_data := firstn stride (skipn index decompressed_data) in
  let index := index + stride in
  reconstructed_scanline <-
    unfilter_dispatch filter_type scanline_data
      (previous_scanline stride reconstructed_image) bytes_per_pixel ;;
  Ok (index, reconstructed_image ++ reconstructed_scanline).

(** [unfilter_scanlines], keeping the final value of [index]. *)
Definition unfilter_scanlines_run (decompressed_data : list Z)
    (width bytes_per_pixel height : nat) : result unfilter_state :=
  let stride := width * bytes_per_pixel in
  for_range 0 height (scanline_body decompressed_data stride bytes_per_pixel)
    (0, []).

Definition unfilter_scanlines (decompressed_data : list Z)
    (width bytes_per_pixel height : nat) : result (list Z) :=
  st <- unfilter_scanlines_run decompressed_data width bytes_per_pixel height ;;
  Ok (snd st).

End Unfilter.

(** ** Predicates of the unfilter engine's statements *)

Module UnfilterSpec.
Import Unfilter.
Local Open Scope nat_scope.

(** The previous scanline, when there is one, is at least [n] bytes long. *)
Definition prev_covers (prev : option (list Z)) (n : nat) : Prop :=
  match prev with
  | Some p => n <= length p
  | None => True
  end.

(** Before pass [k]: [index] is at the start of scanline [k], and the
    image holds [k] full rows as long as the input reached that far. *)
Definition rows_inv (data : list Z) (stride : nat) (k : nat)
    (st : unfilter_state) : Prop :=
  fst st = k * (1 + stride)
  /\ (k * (1 + stride) <= length data -> length (snd st) = k * stride).

(** The filter byte of scanline [k] is one of the five filter types. *)
Definition valid_filter_byte (data : list Z) (stride k : nat) : Prop :=
  (0 <= nth (k * (1 + stride)) data 0 <= 4)%Z.

(** What is known of an exception that leaves the scanline loop. *)
Definition loop_exception (e : exn) : Prop :=
  e = IndexError \/ exists f, e = ValueError_unknown_filter f.

End UnfilterSpec.

(** ** Forward filters *)

(** Modelled from the spec: the forward filters (the encoder side), which
    the program does not contain. Section 4.5 gives each reconstructed
    byte as [(data[i] + predictor) mod 256], the predictor being [left]
    for Sub, [up] for Up, [floor((left + up) / 2)] for Average and
    [paeth(left, up, upper_left)] for Paeth, with [left], [up] and
    [upper_left] reconstructed bytes, zero where there is none. The forward
    filter is that equation solved for [data[i]]: the original byte minus
    the predictor, modulo 256. Filter 0 leaves the row unchanged. *)

Module ForwardFilter.
Local Open Scope nat_scope.

(** Byte [i] of the previous scanline, zero on the first row. *)
Definition up_of (prev : option (list Z)) (i : nat) : Z :=
  match prev with
  | Some p => nth i p 0%Z
  | None => 0%Z
  end.

Definition left_of (orig : list Z) (bpp i : nat) : Z :=
  if bpp <=? i then nth (i - bpp) orig 0%Z else 0%Z.

Definition upper_left_of (prev : option (list Z)) (bpp i : nat) : Z :=
  if bpp <=? i then up_of prev (i - bpp) else 0%Z.

Definition filter_with (predictor : nat -> Z) (orig : list Z) : list Z :=
  map (fun i => ((nth i orig 0 - predictor i) mod 256)%Z)
      (seq 0 (length orig)).

Definition filter_sub (orig : list Z) (bpp : nat) : list Z :=
  filter_with (left_of orig bpp) orig.

Definition filter_up (orig : list Z) (prev : option (list Z)) : list Z :=
  filter_with (up_of prev) orig.

Definition filter_average (orig : list Z) (prev : option (list Z))
    (bpp : nat) : list Z :=
  filter_with (fun i => ((left_of orig bpp i + up_of prev i) / 2)%Z) orig.

(** Modelled from the spec: the Paeth predictor of section 4.5. With
    [p = left + up - upper_left], it is the candidate among [left], [up]
    and [upper_left] whose distance [|p - candidate|] is the least of the
    three, [left] winning a tie before [up], and [up] before
    [upper_left]. *)
Definition paeth (left up upper_left : Z) : Z :=
  let p := (left + up - upper_left)%Z in
  let d_left := Z.abs (p - left) in
  let d_up := Z.abs (p - up) in
  let d_upper_left := Z.abs (p - upper_left) in
  let least := Z.min d_left (Z.min d_up d_upper_left) in
  if (d_left =? least)%Z then left
  else if (d_up =? least)%Z then up
  else upper_left.

Definition filter_paeth (orig : list Z) (prev : option (list Z))
    (bpp : nat) : list Z :=
  filter_with
    (fun i => paeth (left_of orig bpp i) (up_of prev i)
                (upper_left_of prev bpp i))
    orig.

Definition forward_filter (filter_type : Z) (orig : list Z)
    (prev : option (list Z)) (bpp : nat) : list Z :=
  if (filter_type =? 0)%Z then orig
  else if (filter_type =? 1)%Z then filter_sub orig bpp
  else if (filter_type =? 2)%Z then filter_up orig prev
  else if (filter_type =? 3)%Z then filter_average orig prev bpp
  else filter_paeth orig prev bpp.

End ForwardFilter.

(** ** idat_unbuilder.py *)

Module Png.

Definition png_signature : list Z := [137; 80; 78; 71; 13; 10; 26; 10].

(** [b'IDAT'] and [b'IHDR']. *)
Definition IDAT : list Z := [73; 68; 65; 84].
Definition IHDR : list Z := [73; 72; 68; 82].

Fixpoint bytes_eqb (a b : list Z) : bool :=
  match a, b with
  | [], [] => true
  | x :: a', y :: b' => (x =? y) && bytes_eqb a' b'
  | _, _ => false
  end.

Definition len (data : list Z) : Z := Z.of_nat (length data).

(** [data[a:b]] for bounds that are not negative (all the slices of the
    source are taken at such bounds). *)
Definition slice (data : list Z) (a b : Z) : list Z :=
  firstn (Z.to_nat (b - a)) (skipn (Z.to_nat a) data).

Fixpoint starts_with (pat l : list Z) : bool :=
  match pat, l with
  | [], _ => true
  | _ :: _, [] => false
  | p :: pat', x :: l' => (p =? x) && starts_with pat' l'
  end.

(** Lowest offset at which [pat] occurs in [l], counted from [pos]. *)
Fixpoint find_in (pat l : list Z) (pos : nat) : option nat :=
  if starts_with pat l then Some pos
  else match l with
       | [] => None
       | _ :: l' => find_in pat l' (S pos)
       end.

(** [data.find(pat, start)] for a [start] that is not negative. *)
Definition bytes_find (data pat : list Z) (start : Z) : Z :=
  if len data <? start then -1
  else match find_in pat (skipn (Z.to_nat start) data) (Z.to_nat start) with
       | Some i => Z.of_nat i
       | None => -1
       end.

Definition be32 (b0 b1 b2 b3 : Z) : Z :=
  ((b0 * 256 + b1) * 256 + b2) * 256 + b3.

(** [struct.unpack('>I', b)[0]]. *)
Definition unpack_I (b : list Z) : result Z :=
  match b with
  | [b0; b1; b2; b3] => Ok (be32 b0 b1 b2 b3)
  | _ => Raise StructError
  end.

(** [struct.unpack('>IIBB', b)]. *)
Definition unpack_IIBB (b : list Z) : result (Z * Z * Z * Z) :=
  match b with
  | [w0; w1; w2; w3; h0; h1; h2; h3; bit_depth; color_type] =>
      Ok (be32 w0 w1 w2 w3, be32 h0 h1 h2 h3, bit_depth, color_type)
  | _ => Raise StructError
  end.

(** *** find_idat_chunks *)

(** The two error messages printed inside the scan loop. *)
Inductive diag : Type :=
| InvalidChunk (idx : Z)
| IncompleteChunk (idx : Z).

(** An extracted record: [(chunk_data, crc32_bytes)]. *)
Definition chunk : Type := (list Z * list Z)%type.

Inductive scan_step : Type :=
| Break (d : option diag)
| Next (idx : Z) (c : chunk)
| Throw (e : exn).

(** One pass through the body of [while idx < len(file_data)]. *)
Definition scan_body (file_data : list Z) (include_magic : bool) (idx : Z)
    : scan_step :=
  let idx := bytes_find file_data IDAT idx in
  if idx =? -1 then Break None
  else
    let length_start := idx - 4 in
    if length_start <? 0 then Break (Some (InvalidChunk idx))
    else
      match unpack_I (slice file_data length_start idx) with
      | Raise e => Throw e
      | Ok length =>
          let data_start := idx + 4 in
          let data_end := data_start + length in
          if data_end + 4 >? len file_data
          then Break (Some (IncompleteChunk idx))
          else
            let chunk_data :=
              if include_magic then slice file_data idx data_end
              else slice file_data data_start data_end in
            let crc32_start := data_end in
            let crc32_end := crc32_start + 4 in
            let crc32_bytes := slice file_data crc32_start crc32_end in
            Next crc32_end (chunk_data, crc32_bytes)
      end.

(** The [while] loop; [None] when [fuel] passes do not reach its exit. *)
Fixpoint scan_loop (fuel : nat) (file_data : list Z) (include_magic : bool)
    (idx : Z) (idat_chunks : list chunk) : option (result (list chunk)) :=
  match fuel with
  | O => None
  | S fuel' =>
      if idx <? len file_data then
        match scan_body file_data include_magic idx with
        | Break _ => Some (Ok idat_chunks)
        | Throw e => Some (Raise e)
        | Next idx' c =>
            scan_loop fuel' file_data include_magic idx' (idat_chunks ++ [c])
        end
      else Some (Ok idat_chunks)
  end.

(** [scanned file_data include_magic idx chunks idx']: from cursor [idx],
    consecutive passes of the loop extract the records [chunks], in this
    order, and leave the cursor at [idx']. *)
Inductive scanned (file_data : list Z) (include_magic : bool)
    : Z -> list chunk -> Z -> Prop :=
| scanned_nil (idx : Z) : scanned file_data include_magic idx [] idx
| scanned_cons (idx idx1 idx2 : Z) (c : chunk) (chunks : list chunk) :
    idx < len file_data ->
    scan_body file_data include_magic idx = Next idx1 c ->
    scanned file_data include_magic idx1 chunks idx2 ->
    scanned file_data include_magic idx (c :: chunks) idx2.

Definition find_idat_chunks_fuel (fuel : nat) (file_data : list Z)
    (include_magic : bool) : option (result (list chunk)) :=
  if negb (bytes_eqb (firstn 8 file_data) png_signature) then Some (Ok [])
  else scan_loop fuel file_data include_magic 8 [].

(** One pass per input byte is more than the loop can make. *)
Definition find_idat_chunks (file_data : list Z) (include_magic : bool)
    : option (result (list chunk)) :=
  find_idat_chunks_fuel (S (length file_data)) file_data include_magic.

(** *** get_png_ihdr_info

    The open file is the list of bytes not yet read: [file.read(n)]
    takes up to [n] of them, [file.seek(k, 1)] drops [k]. The function is
    given the contents of the file instead of its path. *)

Definition file_read (n : nat) (file : list Z) : list Z * list Z :=
  (firstn n file, skipn n file).

Definition file_seek_cur (offset : Z) (file : list Z) : list Z :=
  skipn (Z.to_nat offset) file.

(** The [if color_type == ...] chain; [None] is the unsupported case. *)
Definition bytes_per_pixel_of (bit_depth color_type : Z) : option Z :=
  if color_type =? 0 then Some (bit_depth / 8)
  else if color_type =? 2 then Some ((bit_depth / 8) * 3)
  else if color_type =? 3 then Some 1
  else if color_type =? 4 then Some ((bit_depth / 8) * 2)
  else if color_type =? 6 then Some ((bit_depth / 8) * 4)
  else None.

(** The [while True] loop. The inner [option] is [None] for the
    [(None, None, None)] return, which is also what the [except] clauses
    lead to; the outer one is [None] when [fuel] passes do not reach a
    [return]. *)
Fixpoint ihdr_loop (fuel : nat) (file : list Z)
    : option (option (Z * Z * Z)) :=
  match fuel with
  | O => None
  | S fuel' =>
      let '(chunk_length_data, file) := file_read 4 file in
      let '(chunk_type, file) := file_read 4 file in
      if (length chunk_length_data <? 4)%nat || (length chunk_type <? 4)%nat
      then Some None
      else
        match unpack_I chunk_length_data with
        | Raise _ => Some None
        | Ok chunk_length =>
            if bytes_eqb chunk_type IHDR then
              let '(ihdr_data, file) := file_read 13 file in
              match unpack_IIBB (firstn 10 ihdr_data) with
              | Raise _ => Some None
              | Ok (width, height, bit_depth, color_type) =>
                  match bytes_per_pixel_of bit_depth color_type with
                  | Some bytes_per_pixel =>
                      Some (Some (width, height, bytes_per_pixel))
                  | None => Some None
                  end
              end
            else ihdr_loop fuel' (file_seek_cur (chunk_length + 4) file)
        end
  end.

Definition get_png_ihdr_info_fuel (fuel : nat) (contents : list Z)
    : option (option (Z * Z * Z)) :=
  let '(png_signature', file) := file_read 8 contents in
  if negb (bytes_eqb png_signature' png_signature) then Some None
  else ihdr_loop fuel file.

Definition get_png_ihdr_info (contents : list Z)
    : option (option (Z * Z * Z)) :=
  get_png_ihdr_info_fuel (S (length contents)) contents.

End Png.

(** ** Concrete inputs *)

Module Samples.

(** Signature, then an IHDR chunk of a 1x1 grayscale image of bit depth 1. *)
Definition png_1bit_gray : list Z :=
  Png.png_signature ++ [0; 0; 0; 13] ++ Png.IHDR
    ++ [0; 0; 0; 1; 0; 0; 0; 1; 1; 0; 0; 0; 0] ++ [55; 110; 249; 36].

(** Signature, then an IHDR chunk of a 2x2 grayscale image of bit depth 8. *)
Definition png_2x2_gray8 : list Z :=
  Png.png_signature ++ [0; 0; 0; 13] ++ Png.IHDR
    ++ [0; 0; 0; 2; 0; 0; 0; 2; 8; 0; 0; 0; 0] ++ [87; 221; 82; 248].

(** Signature, then an IHDR chunk that declares width 0 and height 0,
    grayscale of bit depth 8. *)
Definition png_zero_size : list Z :=
  Png.png_signature ++ [0; 0; 0; 13] ++ Png.IHDR
    ++ [0; 0; 0; 0; 0; 0; 0; 0; 8; 0; 0; 0; 0] ++ [30; 224; 35; 206].

(** Signature, a complete IDAT chunk with payload [[7]], then an IDAT
    chunk that declares five payload bytes and holds two. *)
Definition png_truncated_idat : list Z :=
  Png.png_signature
    ++ [0; 0; 0; 1] ++ Png.IDAT ++ [7] ++ [182; 92; 176; 75]
    ++ [0; 0; 0; 5] ++ Png.IDAT ++ [1; 2].

End Samples.

(** ** idat_unbuilder.py: the callers of the scanner and of the engine *)

Module Pipeline.
Import Png.

Section Zlib.

(** [zlib.decompress], which the program imports; [None] is [zlib.error]. *)
Variable zlib_decompress : list Z -> option (list Z).

(** [b''.join([chunk for chunk, crc in idat_chunks])], then the external
    decompression; the [except zlib.error] clause returns [None]. *)
Definition decompress_idat_chunks (idat_chunks : list chunk)
    : option (list Z) :=
  let combined_data := concat (map (fun '(chunk, crc) => chunk) idat_chunks) in
  match zlib_decompress combined_data with
  | Some decompressed_data => Some decompressed_data
  | None => None
  end.

End Zlib.

(** [unfilter_idat_data] prints and hands its arguments on. *)
Definition unfilter_idat_data (decompressed_data : list Z)
    (width bytes_per_pixel height : nat) : result (list Z) :=
  Unfilter.unfilter_scanlines decompressed_data width bytes_per_pixel height.

End Pipeline.

(** ** Bit order *)

Module BitOrder.

(** [reflect width x]: the low [width] bits of [x] in opposite order (bit
    [i] goes to bit [width - 1 - i]). The program has no such function;
    it is what relates the two bit orders of the CRC engine. *)
Fixpoint reflect (width : nat) (x : Z) : Z :=
  match width with
  | O => 0
  | S w => Z.lor (Z.shiftl (Z.land x 1) (Z.of_nat w)) (reflect w (Z.shiftr x 1))
  end.

End BitOrder.

(** * Properties *)

Module Crc32Facts.
Import Crc32.

Lemma mask32_mod x : mask32 x = x mod 2 ^ 32.
Proof.
  unfold mask32. change 0xFFFFFFFF with (Z.ones 32).
  apply Z.land_ones. lia.
Qed.

Lemma mask32_u32 x : is_u32 (mask32 x).
Proof. rewrite mask32_mod. apply Z.mod_pos_bound. lia. Qed.

Lemma mask32_id x : is_u32 x -> mask32 x = x.
Proof. intros H. rewrite mask32_mod. apply Z.mod_small. exact H. Qed.

Lemma mask32_idem x : mask32 (mask32 x) = mask32 x.
Proof. apply mask32_id, mask32_u32. Qed.

Lemma mask32_lxor a b : mask32 (Z.lxor a b) = Z.lxor (mask32 a) (mask32 b).
Proof.
  unfold mask32. apply Z.bits_inj'. intros n _.
  rewrite Z.land_spec, !Z.lxor_spec, !Z.land_spec.
  destruct (Z.testbit a n), (Z.testbit b n), (Z.testbit 0xFFFFFFFF n);
    reflexivity.
Qed.

Lemma lxor_u32 a b : is_u32 a -> is_u32 b -> is_u32 (Z.lxor a b).
Proof.
  intros Ha Hb.
  rewrite <- (mask32_id a Ha), <- (mask32_id b Hb), <- mask32_lxor.
  apply mask32_u32.
Qed.

Lemma shiftr1_u32 a : is_u32 a -> is_u32 (Z.shiftr a 1).
Proof.
  unfold is_u32. intros H. rewrite Z.shiftr_div_pow2 by lia.
  change (2 ^ 1) with 2. split.
  - apply Z.div_pos; lia.
  - apply Z.div_lt_upper_bound; lia.
Qed.

Lemma byte_u32 b : is_byte b -> is_u32 b.
Proof. unfold is_byte, is_u32. lia. Qed.

Lemma mask32_shiftl1 x : mask32 (Z.shiftl (mask32 x) 1) = mask32 (Z.shiftl x 1).
Proof.
  rewrite !mask32_mod, !Z.shiftl_mul_pow2 by lia.
  rewrite Z.mul_mod_idemp_l by lia. reflexivity.
Qed.

Lemma top_bit_mask32 x : Z.land (mask32 x) 0x80000000 = Z.land x 0x80000000.
Proof. unfold mask32. rewrite <- Z.land_assoc. reflexivity. Qed.

(** Between the per-byte masks the Python integer of the forward mode is
    wider than 32 bits: the first shift of the all-ones register gives a
    33-bit value. *)
Lemma standard_bit_widens :
  standard_bit standard_polynomial 0xFFFFFFFF = 0x1FB3EE249.
Proof. reflexivity. Qed.

(** One unmasked step of the forward register agrees, on its low 32
    bits, with the masked step run on the low 32 bits. *)
Lemma standard_bit_mask32 p x :
  mask32 (standard_bit p x) = masked_standard_bit p (mask32 x).
Proof.
  unfold standard_bit, masked_standard_bit.
  rewrite top_bit_mask32.
  destruct (truthy (Z.land x 0x80000000)).
  - rewrite !mask32_lxor, mask32_idem, mask32_shiftl1. reflexivity.
  - rewrite mask32_shiftl1. reflexivity.
Qed.

Lemma standard_iter_mask32 p n x :
  mask32 (Nat.iter n (standard_bit p) x)
  = Nat.iter n (masked_standard_bit p) (mask32 x).
Proof.
  induction n as [|n IH]; simpl.
  - reflexivity.
  - rewrite standard_bit_mask32, IH. reflexivity.
Qed.

Lemma standard_byte_masked p c b :
  standard_byte p c b = masked_standard_byte p c b.
Proof.
  unfold standard_byte, masked_standard_byte.
  fold (mask32 (Nat.iter 8 (standard_bit p) (Z.lxor c (Z.shiftl b 24)))).
  rewrite standard_iter_mask32.
  rewrite (mask32_lxor c (mask32 _)), mask32_idem, <- mask32_lxor.
  reflexivity.
Qed.

Lemma standard_byte_u32 p c b : is_u32 (standard_byte p c b).
Proof. unfold standard_byte. apply mask32_u32. Qed.

Lemma fold_standard_masked p data c :
  fold_left (standard_byte p) data c = fold_left (masked_standard_byte p) data c.
Proof.
  revert c. induction data as [|b data IH]; intros c; simpl.
  - reflexivity.
  - rewrite standard_byte_masked. apply IH.
Qed.

Lemma fold_standard_u32 p data c :
  is_u32 c -> is_u32 (fold_left (standard_byte p) data c).
Proof.
  revert c. induction data as [|b data IH]; intros c Hc; simpl.
  - exact Hc.
  - apply IH, standard_byte_u32.
Qed.

Lemma reversed_bit_u32 p x : is_u32 p -> is_u32 x -> is_u32 (reversed_bit p x).
Proof.
  intros Hp Hx. unfold reversed_bit.
  destruct (truthy (Z.land x 1)).
  - apply lxor_u32; [apply shiftr1_u32|]; assumption.
  - apply shiftr1_u32; assumption.
Qed.

Lemma reversed_bit_masked p x :
  is_u32 p -> is_u32 x -> masked_reversed_bit p x = reversed_bit p x.
Proof.
  intros Hp Hx. unfold reversed_bit, masked_reversed_bit.
  pose proof (shiftr1_u32 x Hx) as Hs.
  destruct (truthy (Z.land x 1)).
  - rewrite (mask32_id (Z.shiftr x 1)) by assumption.
    apply mask32_id, lxor_u32; assumption.
  - apply mask32_id; assumption.
Qed.

Lemma reversed_iter p n x :
  is_u32 p -> is_u32 x ->
  is_u32 (Nat.iter n (reversed_bit p) x)
  /\ Nat.iter n (masked_reversed_bit p) x = Nat.iter n (reversed_bit p) x.
Proof.
  intros Hp Hx. induction n as [|n [IH1 IH2]]; simpl.
  - split; [assumption | reflexivity].
  - split.
    + apply reversed_bit_u32; assumption.
    + rewrite IH2. apply reversed_bit_masked; assumption.
Qed.

Lemma reversed_byte_u32 p c b :
  is_u32 p -> is_u32 c -> is_byte b -> is_u32 (reversed_byte p c b).
Proof.
  intros Hp Hc Hb. unfold reversed_byte.
  apply reversed_iter; [assumption|].
  apply lxor_u32; [assumption | apply byte_u32; assumption].
Qed.

Lemma reversed_byte_masked p c b :
  is_u32 p -> is_u32 c -> is_byte b ->
  masked_reversed_byte p c b = reversed_byte p c b.
Proof.
  intros Hp Hc Hb. unfold reversed_byte, masked_reversed_byte.
  assert (is_u32 (Z.lxor c b)) as Hx
      by (apply lxor_u32; [assumption | apply byte_u32; assumption]).
  rewrite (mask32_id _ Hx). apply reversed_iter; assumption.
Qed.

Lemma fold_reversed p data c :
  is_u32 p -> is_u32 c -> is_bytes data ->
  is_u32 (fold_left (reversed_byte p) data c)
  /\ fold_left (masked_reversed_byte p) data c
     = fold_left (reversed_byte p) data c.
Proof.
  intros Hp Hc Hd. revert c Hc.
  induction Hd as [|b data Hb Hd IH]; intros c Hc; simpl.
  - split; [assumption | reflexivity].
  - rewrite reversed_byte_masked by assumption.
    apply IH, reversed_byte_u32; assumption.
Qed.

(** C7: under the zlib-style defaults, the reflected checksum of the
    empty byte sequence is [0x00000000] and the reflected checksum of the
    nine ASCII bytes of ["123456789"] is [0xCBF43926]. *)
Theorem crc32_reversed_known_vectors :
  calculate_crc32_reversed [] reversed_polynomial default_initial_value
    = 0x00000000
  /\ calculate_crc32_reversed check_input reversed_polynomial
       default_initial_value = 0xCBF43926.
Proof. split; vm_compute; reflexivity. Qed.

(** C8: for every byte sequence, 32-bit polynomial and 32-bit initial
    value, each of the two checksum functions returns a value in
    [0, 2^32) that equals the reference computation masking the register
    to 32 bits after every shift and every exclusive-or; the register
    carried from one input byte to the next is itself within 32 bits. *)
Theorem crc32_confined_to_32_bits (data : list Z) (polynomial initial_value : Z) :
  is_bytes data -> is_u32 polynomial -> is_u32 initial_value ->
  (calculate_crc32_standard data polynomial initial_value
     = masked_crc32_standard data polynomial initial_value
   /\ is_u32 (calculate_crc32_standard data polynomial initial_value)
   /\ is_u32 (fold_left (standard_byte polynomial) data initial_value))
  /\
  (calculate_crc32_reversed data polynomial initial_value
     = masked_crc32_reversed data polynomial initial_value
   /\ is_u32 (calculate_crc32_reversed data polynomial initial_value)
   /\ is_u32 (fold_left (reversed_byte polynomial) data initial_value)).
Proof.
  intros Hd Hp Hi.
  pose proof (fold_standard_u32 polynomial data initial_value Hi) as Hs.
  destruct (fold_reversed polynomial data initial_value Hp Hi Hd) as [Hr Hm].
  split; split.
  - unfold calculate_crc32_standard, masked_crc32_standard.
    rewrite <- fold_standard_masked.
    symmetry. apply mask32_id, lxor_u32; assumption.
  - split; [apply lxor_u32; assumption | assumption].
  - unfold calculate_crc32_reversed, masked_crc32_reversed.
    rewrite Hm. symmetry. apply mask32_id, lxor_u32; assumption.
  - split; [apply lxor_u32; assumption | assumption].
Qed.

Lemma crc32_confined_to_32_bits_witness :
  (calculate_crc32_standard check_input standard_polynomial default_initial_value
     = masked_crc32_standard check_input standard_polynomial default_initial_value
   /\ is_u32 (calculate_crc32_standard check_input standard_polynomial
                default_initial_value)
   /\ is_u32 (fold_left (standard_byte standard_polynomial) check_input
                default_initial_value))
  /\
  (calculate_crc32_reversed check_input reversed_polynomial default_initial_value
     = masked_crc32_reversed check_input reversed_polynomial default_initial_value
   /\ is_u32 (calculate_crc32_reversed check_input reversed_polynomial
                default_initial_value)
   /\ is_u32 (fold_left (reversed_byte reversed_polynomial) check_input
                default_initial_value)).
Proof.
  split.
  - apply (crc32_confined_to_32_bits check_input standard_polynomial
             default_initial_value).
    + unfold is_bytes, check_input, is_byte. repeat constructor; lia.
    + unfold is_u32, standard_polynomial. lia.
    + unfold is_u32, default_initial_value. lia.
  - apply (crc32_confined_to_32_bits check_input reversed_polynomial
             default_initial_value).
    + unfold is_bytes, check_input, is_byte. repeat constructor; lia.
    + unfold is_u32, reversed_polynomial. lia.
    + unfold is_u32, default_initial_value. lia.
Defined.

End Crc32Facts.

(** ** Loops and lookups *)

Module LoopFacts.
Local Open Scope nat_scope.

(** A loop whose body keeps an invariant never raises and ends in it. *)
Lemma for_range_inv {St : Type} (Inv : nat -> St -> Prop)
    (body : nat -> St -> result St) (count : nat) :
  forall start st,
    Inv start st ->
    (forall i s, start <= i < start + count -> Inv i s ->
                 exists s', body i s = Ok s' /\ Inv (S i) s') ->
    exists s', for_range start count body st = Ok s'
               /\ Inv (start + count) s'.
Proof.
  induction count as [|count IH]; intros start st H0 Hstep; simpl.
  - exists st. rewrite Nat.add_0_r. split; [reflexivity | exact H0].
  - destruct (Hstep start st ltac:(lia) H0) as (s1 & E1 & I1).
    rewrite E1. simpl.
    destruct (IH (S start) s1 I1) as (s' & E & I).
    + intros i s Hi. apply Hstep. lia.
    + exists s'. split; [exact E|].
      replace (start + S count) with (S start + count) by lia. exact I.
Qed.

(** A loop whose body raises at pass [k], and before that either keeps
    the invariant or raises, raises. [Q] is what is known of the
    exception. *)
Lemma for_range_raises {St : Type} (Inv : nat -> St -> Prop)
    (Q : exn -> Prop) (body : nat -> St -> result St) (count : nat) :
  forall start st k,
    Inv start st ->
    start <= k < start + count ->
    (forall i s, start <= i < k -> Inv i s ->
                 (exists s', body i s = Ok s' /\ Inv (S i) s')
                 \/ (exists e, body i s = Raise e /\ Q e)) ->
    (forall s, Inv k s -> exists e, body k s = Raise e /\ Q e) ->
    exists e, for_range start count body st = Raise e /\ Q e.
Proof.
  induction count as [|count IH]; intros start st k H0 Hk Hstep Hlast.
  - lia.
  - simpl. destruct (Nat.eq_dec start k) as [->|Hne].
    + destruct (Hlast st H0) as (e & E & HQ). rewrite E. simpl.
      exists e. split; [reflexivity | exact HQ].
    + destruct (Hstep start st ltac:(lia) H0)
        as [(s1 & E1 & I1) | (e & E & HQ)].
      * rewrite E1. simpl. apply (IH (S start) s1 k I1); [lia | | exact Hlast].
        intros i s Hi. apply Hstep. lia.
      * rewrite E. simpl. exists e. split; [reflexivity | exact HQ].
Qed.

Lemma getitem_nth (l : list Z) (i : nat) :
  i < length l -> getitem l i = Ok (nth i l 0%Z).
Proof.
  intros H. unfold getitem. rewrite (nth_error_nth' l 0%Z H). reflexivity.
Qed.

Lemma getitem_out (l : list Z) (i : nat) :
  length l <= i -> getitem l i = Raise IndexError.
Proof.
  intros H. unfold getitem.
  apply nth_error_None in H. rewrite H. reflexivity.
Qed.

Lemma firstn_snoc (l : list Z) :
  forall i, i < length l -> firstn (S i) l = firstn i l ++ [nth i l 0%Z].
Proof.
  induction l as [|x l IH]; intros i H; simpl in H.
  - lia.
  - destruct i as [|i].
    + reflexivity.
    + change (x :: firstn (S i) l = x :: (firstn i l ++ [nth i l 0%Z])).
      rewrite IH by lia. reflexivity.
Qed.

Lemma getitem_firstn (l : list Z) (i j : nat) :
  j < i -> i <= length l -> getitem (firstn i l) j = Ok (nth j l 0%Z).
Proof.
  intros Hj Hi. unfold getitem. rewrite nth_error_firstn.
  apply Nat.ltb_lt in Hj. rewrite Hj.
  rewrite (nth_error_nth' l 0%Z); [reflexivity|].
  apply Nat.ltb_lt in Hj. lia.
Qed.

End LoopFacts.

(** ** Unfilter engine *)

Module UnfilterFacts.
Import Unfilter UnfilterSpec ForwardFilter LoopFacts.
Local Open Scope nat_scope.

Lemma up_lookup prev n i :
  prev_covers prev n -> i < n ->
  (if prev_truthy prev then prev_getitem prev i else Ok 0%Z)
  = Ok (up_of prev i).
Proof.
  intros Hc Hi. destruct prev as [p|]; [|reflexivity].
  simpl in Hc. destruct p as [|p0 p]; [simpl in Hc; lia|].
  cbn [prev_truthy prev_getitem up_of]. apply getitem_nth. lia.
Qed.

Lemma upper_left_lookup prev n bpp i :
  prev_covers prev n -> i < n ->
  (if prev_truthy prev && (bpp <=? i)
   then prev_getitem prev (i - bpp) else Ok 0%Z)
  = Ok (upper_left_of prev bpp i).
Proof.
  intros Hc Hi. unfold upper_left_of.
  destruct prev as [p|].
  - simpl in Hc. destruct p as [|p0 p]; [simpl in Hc; lia|].
    cbn [prev_truthy prev_getitem up_of andb].
    destruct (bpp <=? i); [|reflexivity]. apply getitem_nth. lia.
  - simpl. destruct (bpp <=? i); reflexivity.
Qed.

Lemma left_lookup orig bpp i :
  1 <= bpp -> i <= length orig ->
  (if bpp <=? i then getitem (firstn i orig) (i - bpp) else Ok 0%Z)
  = Ok (left_of orig bpp i).
Proof.
  intros Hb Hi. unfold left_of.
  destruct (bpp <=? i) eqn:E; [|reflexivity].
  apply Nat.leb_le in E. apply getitem_firstn; lia.
Qed.

Lemma length_filter_with predictor orig :
  length (filter_with predictor orig) = length orig.
Proof. unfold filter_with. rewrite length_map, length_seq. reflexivity. Qed.

Lemma getitem_filter_with predictor orig i :
  i < length orig ->
  getitem (filter_with predictor orig) i
  = Ok ((nth i orig 0 - predictor i) mod 256)%Z.
Proof.
  intros H. unfold getitem, filter_with.
  rewrite nth_error_map, nth_error_seq.
  apply Nat.ltb_lt in H. rewrite H. reflexivity.
Qed.

Lemma unpredict (o p : Z) : is_byte o -> (((o - p) mod 256 + p) mod 256 = o)%Z.
Proof.
  intros H. rewrite Z.add_mod_idemp_l by lia.
  replace (o - p + p)%Z with o by lia. apply Z.mod_small. exact H.
Qed.

Lemma nth_is_byte (l : list Z) i : is_bytes l -> i < length l -> is_byte (nth i l 0%Z).
Proof.
  intros Hl Hi. unfold is_bytes in Hl. rewrite Forall_forall in Hl.
  apply Hl, nth_In, Hi.
Qed.

(** A row filtered against an all-zero predictor is the row itself. *)
Lemma filter_with_zero predictor orig :
  is_bytes orig ->
  (forall i, i < length orig -> predictor i = 0%Z) ->
  filter_with predictor orig = orig.
Proof.
  intros Hb Hp. apply (nth_ext _ _ 0%Z 0%Z).
  - apply length_filter_with.
  - intros n Hn. rewrite length_filter_with in Hn.
    pose proof (getitem_filter_with predictor orig n Hn) as E.
    rewrite getitem_nth in E by (rewrite length_filter_with; exact Hn).
    injection E as E. rewrite E, (Hp n Hn), Z.sub_0_r.
    apply Z.mod_small, nth_is_byte; assumption.
Qed.

(** The shape shared by the four inverse loops: if every pass appends
    the original byte to the prefix rebuilt so far, the loop rebuilds the
    original row. *)
Lemma rebuild_loop (orig : list Z) (body : nat -> list Z -> result (list Z)) :
  (forall i, i < length orig ->
             body i (firstn i orig) = Ok (firstn i orig ++ [nth i orig 0%Z])) ->
  for_range 0 (length orig) body [] = Ok orig.
Proof.
  intros Hbody.
  destruct (for_range_inv (fun i r => r = firstn i orig) body (length orig) 0 [])
    as (r & E & I).
  - reflexivity.
  - intros i s Hi ->. exists (firstn (S i) orig). split.
    + rewrite Hbody by lia. rewrite firstn_snoc by lia. reflexivity.
    + reflexivity.
  - rewrite E, I. simpl. rewrite firstn_all. reflexivity.
Qed.

(** The predictor the code computes by its chain of comparisons is the
    least-distance candidate of section 4.5, ties included. *)
Lemma paeth_predictor_least_distance (a b c : Z) :
  paeth_predictor a b c = paeth a b c.
Proof.
  unfold paeth_predictor, paeth. cbv zeta.
  set (pa := Z.abs (a + b - c - a)).
  set (pb := Z.abs (a + b - c - b)).
  set (pc := Z.abs (a + b - c - c)).
  destruct (Z.leb_spec pa pb) as [Hab|Hab];
    destruct (Z.leb_spec pa pc) as [Hac|Hac];
    destruct (Z.leb_spec pb pc) as [Hbc|Hbc];
    cbn [andb];
    destruct (Z.eqb_spec pa (Z.min pa (Z.min pb pc))) as [E1|E1];
    destruct (Z.eqb_spec pb (Z.min pa (Z.min pb pc))) as [E2|E2];
    try reflexivity; exfalso; lia.
Qed.

Section RoundTrip.
Variable orig : list Z.
Variable prev : option (list Z).
Variable bpp : nat.
Hypothesis orig_bytes : is_bytes orig.
Hypothesis prev_long : prev_covers prev (length orig).

Lemma sub_round_trip :
  1 <= bpp -> unfilter_sub (filter_sub orig bpp) bpp = Ok orig.
Proof.
  intros Hb. unfold unfilter_sub, filter_sub.
  rewrite length_filter_with. apply rebuild_loop. intros i Hi.
  rewrite getitem_filter_with by exact Hi.
  pose proof (nth_is_byte orig i orig_bytes Hi) as Ho.
  unfold left_of. destruct (i <? bpp) eqn:E.
  - apply Nat.ltb_lt in E.
    replace (bpp <=? i) with false by (symmetry; apply Nat.leb_gt; lia).
    cbn [bind]. rewrite Z.sub_0_r, Z.mod_small by exact Ho. reflexivity.
  - apply Nat.ltb_ge in E.
    replace (bpp <=? i) with true by (symmetry; apply Nat.leb_le; lia).
    cbn [bind]. rewrite getitem_firstn by lia. cbn [bind].
    rewrite unpredict by exact Ho. reflexivity.
Qed.

Lemma up_round_trip : unfilter_up (filter_up orig prev) prev = Ok orig.
Proof.
  unfold unfilter_up, filter_up.
  destruct (prev_truthy prev) eqn:T; cbn [negb].
  - rewrite length_filter_with. apply rebuild_loop. intros i Hi.
    rewrite getitem_filter_with by exact Hi. cbn [bind].
    pose proof (up_lookup prev (length orig) i prev_long Hi) as U.
    rewrite T in U. rewrite U. cbn [bind].
    rewrite unpredict by (apply nth_is_byte; assumption). reflexivity.
  - f_equal. apply filter_with_zero; [exact orig_bytes|].
    intros i Hi. destruct prev as [[|p0 p]|]; try reflexivity.
    + simpl in prev_long. lia.
    + discriminate T.
Qed.

Lemma average_round_trip :
  1 <= bpp ->
  unfilter_average (filter_average orig prev bpp) prev bpp = Ok orig.
Proof.
  intros Hb. unfold unfilter_average, filter_average.
  rewrite length_filter_with. apply rebuild_loop. intros i Hi.
  rewrite left_lookup by lia. cbn [bind].
  rewrite (up_lookup prev (length orig)) by assumption. cbn [bind].
  rewrite getitem_filter_with by exact Hi. cbn [bind].
  rewrite unpredict by (apply nth_is_byte; assumption). reflexivity.
Qed.

Lemma paeth_round_trip :
  1 <= bpp ->
  unfilter_paeth (filter_paeth orig prev bpp) prev bpp = Ok orig.
Proof.
  intros Hb. unfold unfilter_paeth, filter_paeth.
  rewrite length_filter_with. apply rebuild_loop. intros i Hi.
  rewrite left_lookup by lia. cbn [bind].
  rewrite (up_lookup prev (length orig)) by assumption. cbn [bind].
  rewrite (upper_left_lookup prev (length orig)) by assumption. cbn [bind].
  rewrite getitem_filter_with by exact Hi. cbn [bind].
  rewrite paeth_predictor_least_distance.
  rewrite unpredict by (apply nth_is_byte; assumption). reflexivity.
Qed.

End RoundTrip.

(** C1: for every scanline [orig] of bytes (of any length), every
    bytes-per-pixel value [bpp >= 1], every previous reconstructed
    scanline [prev] (absent on the first row, where it counts as zeros)
    and every filter type [f] in 0..4, the unfilter helper the scanline
    loop selects for [f], applied to the forward filter of type [f] of
    [orig], returns [orig]. *)
Theorem filter_unfilter_round_trip
    (filter_type : Z) (orig : list Z) (prev : option (list Z)) (bpp : nat) :
  is_bytes orig ->
  1 <= bpp ->
  (0 <= filter_type <= 4)%Z ->
  prev_covers prev (length orig) ->
  unfilter_dispatch filter_type
    (forward_filter filter_type orig prev bpp) prev bpp = Ok orig.
Proof.
  intros Ho Hb Hf Hp.
  assert (filter_type = 0 \/ filter_type = 1 \/ filter_type = 2
          \/ filter_type = 3 \/ filter_type = 4)%Z
    as [-> | [-> | [-> | [-> | ->]]]] by lia;
    unfold unfilter_dispatch, forward_filter; cbn [Z.eqb Pos.eqb].
  - reflexivity.
  - apply sub_round_trip; assumption.
  - apply up_round_trip; assumption.
  - apply average_round_trip; assumption.
  - apply paeth_round_trip; assumption.
Qed.

(** *** The helpers do not raise on rows the scanline loop builds *)

Lemma append_loop_ok (n : nat) (body : nat -> list Z -> result (list Z)) :
  (forall i r, i < n -> length r = i -> exists x, body i r = Ok (r ++ [x])) ->
  exists r, for_range 0 n body [] = Ok r /\ length r = n.
Proof.
  intros Hbody.
  destruct (for_range_inv (fun i r => length r = i) body n 0 [])
    as (r & E & I).
  - reflexivity.
  - intros i r Hi Hr. destruct (Hbody i r ltac:(lia) Hr) as (x & E).
    exists (r ++ [x]). split; [exact E|].
    rewrite length_app, Hr. simpl. lia.
  - exists r. split; [exact E | exact I].
Qed.

Lemma prev_lookup_ok prev n i :
  prev_covers prev n -> i < n ->
  exists u, (if prev_truthy prev then prev_getitem prev i else Ok 0%Z) = Ok u.
Proof. intros Hc Hi. eexists. eapply up_lookup; eassumption. Qed.

Lemma left_lookup_ok (r : list Z) bpp i :
  1 <= bpp -> length r = i ->
  exists l, (if bpp <=? i then getitem r (i - bpp) else Ok 0%Z) = Ok l.
Proof.
  intros Hb Hr. destruct (bpp <=? i) eqn:E.
  - apply Nat.leb_le in E. eexists. apply getitem_nth. lia.
  - eexists. reflexivity.
Qed.

Lemma unfilter_sub_ok scanline bpp :
  1 <= bpp ->
  exists r, unfilter_sub scanline bpp = Ok r /\ length r = length scanline.
Proof.
  intros Hb. apply append_loop_ok. intros i r Hi Hr.
  rewrite (getitem_nth scanline i Hi).
  destruct (i <? bpp) eqn:E; cbn [bind].
  - eexists. reflexivity.
  - apply Nat.ltb_ge in E. rewrite (getitem_nth r (i - bpp)) by lia.
    cbn [bind]. eexists. reflexivity.
Qed.

Lemma unfilter_up_ok scanline prev :
  prev_covers prev (length scanline) ->
  exists r, unfilter_up scanline prev = Ok r /\ length r = length scanline.
Proof.
  intros Hc. unfold unfilter_up.
  destruct (prev_truthy prev) eqn:T; cbn [negb].
  - apply append_loop_ok. intros i r Hi Hr.
    rewrite (getitem_nth scanline i Hi). cbn [bind].
    destruct (prev_lookup_ok prev (length scanline) i Hc Hi) as (u & U).
    rewrite T in U. rewrite U. cbn [bind]. eexists. reflexivity.
  - exists scanline. split; reflexivity.
Qed.

Lemma unfilter_average_ok scanline prev bpp :
  1 <= bpp -> prev_covers prev (length scanline) ->
  exists r, unfilter_average scanline prev bpp = Ok r
            /\ length r = length scanline.
Proof.
  intros Hb Hc. apply append_loop_ok. intros i r Hi Hr.
  destruct (left_lookup_ok r bpp i Hb Hr) as (l & L). rewrite L. cbn [bind].
  destruct (prev_lookup_ok prev (length scanline) i Hc Hi) as (u & U).
  rewrite U. cbn [bind].
  rewrite (getitem_nth scanline i Hi). cbn [bind]. eexists. reflexivity.
Qed.

Lemma unfilter_paeth_ok scanline prev bpp :
  1 <= bpp -> prev_covers prev (length scanline) ->
  exists r, unfilter_paeth scanline prev bpp = Ok r
            /\ length r = length scanline.
Proof.
  intros Hb Hc. apply append_loop_ok. intros i r Hi Hr.
  destruct (left_lookup_ok r bpp i Hb Hr) as (l & L). rewrite L. cbn [bind].
  destruct (prev_lookup_ok prev (length scanline) i Hc Hi) as (u & U).
  rewrite U. cbn [bind].
  rewrite (upper_left_lookup prev (length scanline) bpp i Hc Hi). cbn [bind].
  rewrite (getitem_nth scanline i Hi). cbn [bind]. eexists. reflexivity.
Qed.

Lemma unfilter_dispatch_ok filter_type scanline prev bpp :
  (0 <= filter_type <= 4)%Z ->
  1 <= bpp \/ scanline = [] ->
  prev_covers prev (length scanline) ->
  exists r, unfilter_dispatch filter_type scanline prev bpp = Ok r
            /\ length r = length scanline.
Proof.
  intros Hf Hb Hc.
  assert (filter_type = 0 \/ filter_type = 1 \/ filter_type = 2
          \/ filter_type = 3 \/ filter_type = 4)%Z
    as [-> | [-> | [-> | [-> | ->]]]] by lia;
    unfold unfilter_dispatch; cbn [Z.eqb Pos.eqb].
  - exists scanline. split; reflexivity.
  - destruct Hb as [Hb | ->]; [apply unfilter_sub_ok, Hb|].
    exists []. split; reflexivity.
  - apply unfilter_up_ok, Hc.
  - destruct Hb as [Hb | ->]; [apply unfilter_average_ok; assumption|].
    exists []. split; reflexivity.
  - destruct Hb as [Hb | ->]; [apply unfilter_paeth_ok; assumption|].
    exists []. split; reflexivity.
Qed.

Lemma unfilter_dispatch_unknown filter_type scanline prev bpp :
  ~ (0 <= filter_type <= 4)%Z ->
  unfilter_dispatch filter_type scanline prev bpp
  = Raise (ValueError_unknown_filter filter_type).
Proof.
  intros Hf. unfold unfilter_dispatch.
  repeat match goal with
         | |- context [(filter_type =? ?c)%Z] =>
             destruct (Z.eqb_spec filter_type c); [lia|]
         end.
  reflexivity.
Qed.

Lemma previous_scanline_covers stride image k n :
  length image = k * stride -> n <= stride ->
  prev_covers (previous_scanline stride image) n.
Proof.
  intros Hl Hn. unfold previous_scanline.
  destruct image as [|x rest] eqn:E; [exact I|].
  rewrite <- E in *. assert (0 < length image) by (rewrite E; simpl; lia).
  simpl. unfold last_slice. destruct (stride =? 0) eqn:S0.
  - apply Nat.eqb_eq in S0. lia.
  - apply Nat.eqb_neq in S0. rewrite length_skipn.
    destruct k as [|k]; [simpl in Hl; lia|]. nia.
Qed.

(** *** The scanline loop *)

Lemma stride_zero_or_bpp width bytes_per_pixel :
  1 <= bytes_per_pixel \/ width * bytes_per_pixel = 0.
Proof.
  destruct (Nat.eq_dec bytes_per_pixel 0) as [E|E]; [right | left; lia].
  rewrite E. apply Nat.mul_0_r.
Qed.

Section Rows.
Variable data : list Z.
Variables stride bytes_per_pixel : nat.
Hypothesis stride_bpp : 1 <= bytes_per_pixel \/ stride = 0.

(** A pass whose filter byte is in the input. *)
Lemma scanline_body_present k st :
  rows_inv data stride k st ->
  k * (1 + stride) < length data ->
  let f := nth (k * (1 + stride)) data 0%Z in
  ((0 <= f <= 4)%Z ->
   exists st', scanline_body data stride bytes_per_pixel k st = Ok st'
               /\ rows_inv data stride (S k) st'
               /\ length (snd st')
                  = k * stride
                    + Nat.min stride (length data - (k * (1 + stride) + 1)))
  /\ (~ (0 <= f <= 4)%Z ->
      scanline_body data stride bytes_per_pixel k st
      = Raise (ValueError_unknown_filter f)).
Proof.
  intros [Hi Hl] Hk f. destruct st as [index image]. cbn [fst snd] in Hi, Hl.
  subst index. specialize (Hl ltac:(lia)).
  unfold scanline_body. rewrite (getitem_nth data _ Hk). fold f.
  cbn [bind].
  set (scanline_data := firstn stride (skipn (k * (1 + stride) + 1) data)).
  assert (length scanline_data
          = Nat.min stride (length data - (k * (1 + stride) + 1))) as Hs
      by (unfold scanline_data; rewrite length_firstn, length_skipn;
          reflexivity).
  split; intros Hf.
  - destruct (unfilter_dispatch_ok f scanline_data
                (previous_scanline stride image) bytes_per_pixel Hf)
      as (r & E & Hr).
    + destruct stride_bpp as [Hb | Hz]; [left; exact Hb | right].
      unfold scanline_data. rewrite Hz. reflexivity.
    + apply (previous_scanline_covers stride image k); [exact Hl | lia].
    + rewrite E. cbn [bind]. eexists. split; [reflexivity|].
      unfold rows_inv. cbn [fst snd]. rewrite length_app, Hr, Hs, Hl.
      repeat split; lia.
  - rewrite unfilter_dispatch_unknown by exact Hf. reflexivity.
Qed.

(** A pass that finds no byte left. *)
Lemma scanline_body_absent k st :
  rows_inv data stride k st ->
  length data <= k * (1 + stride) ->
  scanline_body data stride bytes_per_pixel k st = Raise IndexError.
Proof.
  intros [Hi _] Hk. destruct st as [index image]. cbn [fst] in Hi. subst index.
  unfold scanline_body. rewrite (getitem_out data _ Hk). reflexivity.
Qed.

Lemma rows_inv_start : rows_inv data stride 0 (0, []).
Proof. split; reflexivity. Qed.

End Rows.

Lemma unfilter_scanlines_of_run data width bytes_per_pixel height st :
  unfilter_scanlines_run data width bytes_per_pixel height = Ok st ->
  unfilter_scanlines data width bytes_per_pixel height = Ok (snd st).
Proof. intros E. unfold unfilter_scanlines. rewrite E. reflexivity. Qed.

Lemma unfilter_scanlines_of_raise data width bytes_per_pixel height e :
  unfilter_scanlines_run data width bytes_per_pixel height = Raise e ->
  unfilter_scanlines data width bytes_per_pixel height = Raise e.
Proof. intros E. unfold unfilter_scanlines. rewrite E. reflexivity. Qed.

(** On an input that holds every scanline in full, with filter bytes
    0..4, the loop ends with [index] past the last scanline and an image
    of [height] rows. *)
Lemma unfilter_scanlines_run_full data width bytes_per_pixel height :
  let stride := width * bytes_per_pixel in
  height * (1 + stride) <= length data ->
  (forall k, k < height -> valid_filter_byte data stride k) ->
  exists image,
    unfilter_scanlines_run data width bytes_per_pixel height
    = Ok (height * (1 + stride), image)
    /\ length image = height * stride.
Proof.
  intros stride Hlen Hf. unfold unfilter_scanlines_run. fold stride.
  destruct (for_range_inv (rows_inv data stride)
              (scanline_body data stride bytes_per_pixel) height 0 (0, []))
    as ([index image] & E & Hi & Hl).
  - apply rows_inv_start.
  - intros k st Hk Hinv.
    assert (k * (1 + stride) < length data) as Hk' by nia.
    destruct (scanline_body_present data stride bytes_per_pixel
              (stride_zero_or_bpp width bytes_per_pixel) k st Hinv Hk')
      as [Hok _].
    destruct (Hok (Hf k ltac:(lia))) as (st' & E' & Hinv' & _).
    exists st'. split; assumption.
  - cbn [fst snd] in Hi, Hl. subst index. exists image.
    split; [exact E | apply Hl; exact Hlen].
Qed.

(** The loop does not look past the last scanline. *)
Lemma scanline_body_firstn data width bytes_per_pixel n k st :
  let stride := width * bytes_per_pixel in
  fst st = k * (1 + stride) ->
  S k * (1 + stride) <= n ->
  scanline_body (firstn n data) stride bytes_per_pixel k st
  = scanline_body data stride bytes_per_pixel k st.
Proof.
  intros stride Hi Hn. destruct st as [index image]. cbn [fst] in Hi.
  subst index. unfold scanline_body.
  assert (getitem (firstn n data) (k * (1 + stride))
          = getitem data (k * (1 + stride))) as ->.
  { unfold getitem. rewrite nth_error_firstn.
    replace (k * (1 + stride) <? n) with true
      by (symmetry; apply Nat.ltb_lt; lia).
    reflexivity. }
  assert (firstn stride (skipn (k * (1 + stride) + 1) (firstn n data))
          = firstn stride (skipn (k * (1 + stride) + 1) data)) as ->.
  { rewrite skipn_firstn_comm, firstn_firstn. f_equal. lia. }
  reflexivity.
Qed.

Lemma for_range_agree {St : Type} (Inv : nat -> St -> Prop)
    (body1 body2 : nat -> St -> result St) (count : nat) :
  forall start st,
    Inv start st ->
    (forall i s, start <= i < start + count -> Inv i s ->
                 body1 i s = body2 i s
                 /\ forall s', body2 i s = Ok s' -> Inv (S i) s') ->
    for_range start count body1 st = for_range start count body2 st.
Proof.
  induction count as [|count IH]; intros start st H0 Hstep; simpl.
  - reflexivity.
  - destruct (Hstep start st ltac:(lia) H0) as [E Hnext].
    rewrite E. destruct (body2 start st) as [s1|e]; [|reflexivity].
    simpl. apply IH; [apply Hnext; reflexivity|].
    intros i s Hi. apply Hstep. lia.
Qed.

Lemma unfilter_scanlines_firstn data width bytes_per_pixel height :
  unfilter_scanlines
    (firstn (height * (1 + width * bytes_per_pixel)) data)
    width bytes_per_pixel height
  = unfilter_scanlines data width bytes_per_pixel height.
Proof.
  unfold unfilter_scanlines, unfilter_scanlines_run. f_equal.
  set (stride := width * bytes_per_pixel).
  apply (for_range_agree (fun k st => fst st = k * (1 + stride))).
  - reflexivity.
  - intros k st Hk Hi. split.
    + apply scanline_body_firstn; [exact Hi | nia].
    + intros s'. destruct st as [index image]. unfold scanline_body.
      destruct (getitem data index) as [f|e]; [|discriminate]. cbn [bind].
      destruct (unfilter_dispatch _ _ _ _) as [r|e]; [|discriminate].
      cbn [bind]. intros E. injection E as <-. cbn [fst] in *. lia.
Qed.

(** C2: for every geometry with positive width, height and bytes per
    pixel, and every decompressed buffer of at least
    [height * (1 + stride)] bytes whose scanlines all start with a filter
    byte in 0..4, [unfilter_scanlines] returns an image of exactly
    [height * stride] bytes, having advanced its read index to exactly
    [height * (1 + stride)]; bytes past that offset have no influence on
    the result. *)
Theorem unfilter_scanlines_counts
    (data : list Z) (width bytes_per_pixel height : nat) :
  0 < width -> 0 < bytes_per_pixel -> 0 < height ->
  height * (1 + width * bytes_per_pixel) <= length data ->
  (forall k, k < height ->
             valid_filter_byte data (width * bytes_per_pixel) k) ->
  exists image,
    unfilter_scanlines_run data width bytes_per_pixel height
    = Ok (height * (1 + width * bytes_per_pixel), image)
    /\ unfilter_scanlines data width bytes_per_pixel height = Ok image
    /\ length image = height * (width * bytes_per_pixel)
    /\ unfilter_scanlines
         (firstn (height * (1 + width * bytes_per_pixel)) data)
         width bytes_per_pixel height = Ok image.
Proof.
  intros _ _ _ Hlen Hf.
  destruct (unfilter_scanlines_run_full data width bytes_per_pixel height
              Hlen Hf) as (image & E & Hl).
  exists image.
  pose proof (unfilter_scanlines_of_run _ _ _ _ _ E) as E'.
  repeat split; try assumption.
  rewrite unfilter_scanlines_firstn. exact E'.
Qed.

Lemma valid_filter_byte_dec data stride k :
  {valid_filter_byte data stride k} + {~ valid_filter_byte data stride k}.
Proof.
  unfold valid_filter_byte.
  destruct (Z_le_dec 0 (nth (k * (1 + stride)) data 0%Z));
    destruct (Z_le_dec (nth (k * (1 + stride)) data 0%Z) 4);
    (left; lia) || (right; lia).
Qed.

(** Either every scanline before [k] has a known filter byte, or one of
    them does not. *)
Lemma first_unknown data stride k :
  (forall i, i < k -> valid_filter_byte data stride i)
  \/ exists i, i < k /\ ~ valid_filter_byte data stride i.
Proof.
  induction k as [|k [IH | (i & Hi & Hbad)]].
  - left. intros i Hi. lia.
  - destruct (valid_filter_byte_dec data stride k) as [Hv | Hv].
    + left. intros i Hi. destruct (Nat.eq_dec i k) as [->|]; [exact Hv|].
      apply IH. lia.
    + right. exists k. split; [lia | exact Hv].
  - right. exists i. split; [lia | exact Hbad].
Qed.

(** Some scanline starts at or past the end of the input: the read of
    its filter byte raises, unless an earlier row raised already. *)
Lemma unfilter_scanlines_missing_row data width bytes_per_pixel height k :
  k < height ->
  length data <= k * (1 + width * bytes_per_pixel) ->
  exists e, unfilter_scanlines data width bytes_per_pixel height = Raise e
            /\ loop_exception e.
Proof.
  intros Hk Hlen. set (stride := width * bytes_per_pixel) in *.
  destruct (for_range_raises (rows_inv data stride) loop_exception
              (scanline_body data stride bytes_per_pixel) height 0 (0, []) k)
    as (e & E & He).
  - apply rows_inv_start.
  - lia.
  - intros i st Hi Hinv.
    destruct (Nat.lt_ge_cases (i * (1 + stride)) (length data)) as [Hp | Ha].
    + destruct (scanline_body_present data stride bytes_per_pixel
                  (stride_zero_or_bpp width bytes_per_pixel) i st Hinv Hp)
        as [Hok Hbad].
      fold stride in Hok, Hbad.
      destruct (Z_le_dec 0 (nth (i * (1 + stride)) data 0%Z)) as [H0|H0];
        [destruct (Z_le_dec (nth (i * (1 + stride)) data 0%Z) 4) as [H4|H4]|].
      * destruct (Hok (conj H0 H4)) as (st' & E' & Hinv' & _).
        left. exists st'. split; assumption.
      * right. eexists. split; [apply Hbad; lia|]. right. eexists. reflexivity.
      * right. eexists. split; [apply Hbad; lia|]. right. eexists. reflexivity.
    + right. exists IndexError. split; [|left; reflexivity].
      apply (scanline_body_absent data stride bytes_per_pixel); assumption.
  - intros st Hinv. exists IndexError. split; [|left; reflexivity].
    apply (scanline_body_absent data stride bytes_per_pixel); assumption.
  - exists e. split; [|exact He].
    apply unfilter_scanlines_of_raise. exact E.
Qed.

(** Only the data of the last scanline is short: no exception, and an
    image that lacks the missing bytes. *)
Lemma unfilter_scanlines_short_last_row data width bytes_per_pixel height :
  let stride := width * bytes_per_pixel in
  (height - 1) * (1 + stride) < length data < height * (1 + stride) ->
  (forall k, k < height -> valid_filter_byte data stride k) ->
  exists image,
    unfilter_scanlines data width bytes_per_pixel height = Ok image
    /\ length image = length data - height
    /\ length image < height * stride.
Proof.
  intros stride Hlen Hf.
  destruct (for_range_inv
              (fun k st => rows_inv data stride k st
                           /\ (k = height ->
                               length (snd st) = length data - height))
              (scanline_body data stride bytes_per_pixel) height 0 (0, []))
    as (st & E & _ & Hl).
  - split; [apply rows_inv_start | intros <-; lia].
  - intros k st Hk [Hinv _].
    assert (k * (1 + stride) < length data) as Hk' by nia.
    destruct (scanline_body_present data stride bytes_per_pixel
              (stride_zero_or_bpp width bytes_per_pixel) k st Hinv Hk')
      as [Hok _].
    destruct (Hok (Hf k ltac:(lia))) as (st' & E' & Hinv' & Hl').
    exists st'. repeat split; try apply Hinv'; try assumption.
    intros Hlast. fold stride in Hl'. rewrite Hl'.
    assert (k = height - 1) as -> by lia. nia.
  - exists (snd st). split; [|split].
    + apply unfilter_scanlines_of_run. exact E.
    + apply Hl. reflexivity.
    + rewrite Hl by reflexivity. nia.
Qed.

(** C3 (amended): when the input is shorter than [height] complete
    scanlines, [unfilter_scanlines] raises (an [IndexError], or the
    unknown-filter [ValueError] of an earlier row) and returns no image
    if some scanline has no byte left at all, not even its filter byte;
    when only data bytes of the last scanline are missing and every
    filter byte is in 0..4, no exception is raised and the returned
    image is shorter than [height * stride] by the missing bytes. *)
Theorem unfilter_scanlines_truncated
    (data : list Z) (width bytes_per_pixel height : nat) :
  length data < height * (1 + width * bytes_per_pixel) ->
  (length data <= (height - 1) * (1 + width * bytes_per_pixel) ->
   exists e, unfilter_scanlines data width bytes_per_pixel height = Raise e
             /\ loop_exception e)
  /\
  ((height - 1) * (1 + width * bytes_per_pixel) < length data ->
   (forall k, k < height ->
              valid_filter_byte data (width * bytes_per_pixel) k) ->
   exists image,
     unfilter_scanlines data width bytes_per_pixel height = Ok image
     /\ length image = length data - height
     /\ length image < height * (width * bytes_per_pixel)).
Proof.
  intros Hshort. split.
  - intros Hlen.
    apply (unfilter_scanlines_missing_row data width bytes_per_pixel height
             (height - 1)); [lia | exact Hlen].
  - intros Hlen Hf.
    apply unfilter_scanlines_short_last_row; [lia | exact Hf].
Qed.

(** C4: if the filter byte of some scanline [k < height] is in the
    input and outside 0..4, [unfilter_scanlines] raises the
    unknown-filter [ValueError], carrying the offending byte of the
    first such scanline, and returns no image. *)
Theorem unfilter_scanlines_unknown_filter
    (data : list Z) (width bytes_per_pixel height k : nat) :
  k < height ->
  k * (1 + width * bytes_per_pixel) < length data ->
  ~ valid_filter_byte data (width * bytes_per_pixel) k ->
  exists j,
    j <= k
    /\ ~ valid_filter_byte data (width * bytes_per_pixel) j
    /\ (forall i, i < j -> valid_filter_byte data (width * bytes_per_pixel) i)
    /\ unfilter_scanlines data width bytes_per_pixel height
       = Raise (ValueError_unknown_filter
                  (nth (j * (1 + width * bytes_per_pixel)) data 0%Z)).
Proof.
  set (stride := width * bytes_per_pixel). intros Hk Hlen Hbad.
  (* the first scanline with an unknown filter byte *)
  assert (exists j, j <= k /\ ~ valid_filter_byte data stride j
                    /\ forall i, i < j -> valid_filter_byte data stride i)
    as (j & Hj & Hjbad & Hjfirst).
  { clear Hk Hlen. induction k as [k IH] using lt_wf_ind.
    destruct (first_unknown data stride k) as [Hall | (i & Hi & Hibad)].
    - exists k. split; [lia | split; [exact Hbad | exact Hall]].
    - destruct (IH i Hi Hibad) as (j & Hj & Hjbad & Hjfirst).
      exists j. split; [lia | split; [exact Hjbad | exact Hjfirst]]. }
  exists j. split; [exact Hj | split; [exact Hjbad | split; [exact Hjfirst |]]].
  apply unfilter_scanlines_of_raise. unfold unfilter_scanlines_run.
  fold stride.
  destruct (for_range_raises (rows_inv data stride)
              (fun e => e = ValueError_unknown_filter
                              (nth (j * (1 + stride)) data 0%Z))
              (scanline_body data stride bytes_per_pixel) height 0 (0, []) j)
    as (e & E & ->).
  - apply rows_inv_start.
  - lia.
  - intros i st Hi Hinv. left.
    assert (i * (1 + stride) < length data) as Hp by nia.
    destruct (scanline_body_present data stride bytes_per_pixel
                  (stride_zero_or_bpp width bytes_per_pixel) i st Hinv Hp)
      as [Hok _].
    destruct (Hok (Hjfirst i ltac:(lia))) as (st' & E' & Hinv' & _).
    exists st'. split; assumption.
  - intros st Hinv. eexists. split; [|reflexivity].
    assert (j * (1 + stride) < length data) as Hp by nia.
    destruct (scanline_body_present data stride bytes_per_pixel
                (stride_zero_or_bpp width bytes_per_pixel) j st Hinv Hp)
      as [_ Hraise].
    apply Hraise. exact Hjbad.
  - exact E.
Qed.

(** C6 (amended): for the 2x2 grayscale image of bit depth 8 (one byte
    per pixel, stride 2), the decompressed stream
    [[0; 10; 20; 0; 30; 40]], in which each of the two rows carries its
    filter byte None, unfilters to [[10; 20; 30; 40]]. *)
Theorem unfilter_scanlines_2x2_none :
  Png.bytes_per_pixel_of 8 0 = Some 1%Z
  /\ unfilter_scanlines [0; 10; 20; 0; 30; 40]%Z 2 1 2
     = Ok [10; 20; 30; 40]%Z.
Proof. split; reflexivity. Qed.

(** The five-byte stream of the scenario has no filter byte for its
    second row: the loop reads 30 as a filter type. *)
Lemma unfilter_scanlines_2x2_five_bytes :
  unfilter_scanlines [0; 10; 20; 30; 40]%Z 2 1 2
    = Raise (ValueError_unknown_filter 30)
  /\ unfilter_scanlines [0; 10; 20; 30; 40]%Z 2 1 2
     <> Ok [10; 20; 30; 40]%Z.
Proof. split; [reflexivity | discriminate]. Qed.

(** Two bytes are left for the second scanline, which needs three; the
    call returns three of the four image bytes. *)
Lemma unfilter_scanlines_partial_image :
  length [0; 10; 20; 0; 30]%Z - 1 * (1 + 2 * 1) < 1 + 2 * 1
  /\ unfilter_scanlines [0; 10; 20; 0; 30]%Z 2 1 2 = Ok [10; 20; 30]%Z.
Proof. split; [simpl; lia | reflexivity]. Qed.

Lemma filter_unfilter_round_trip_witness :
  unfilter_dispatch 4
    (forward_filter 4 [10; 200; 30; 40; 50; 60]%Z
       (Some [1; 2; 3; 250; 5; 6]%Z) 2)
    (Some [1; 2; 3; 250; 5; 6]%Z) 2
  = Ok [10; 200; 30; 40; 50; 60]%Z.
Proof.
  apply (filter_unfilter_round_trip 4 [10; 200; 30; 40; 50; 60]%Z
           (Some [1; 2; 3; 250; 5; 6]%Z) 2).
  - repeat constructor; unfold is_byte; lia.
  - lia.
  - lia.
  - simpl. lia.
Defined.

Lemma unfilter_scanlines_counts_witness :
  exists image,
    unfilter_scanlines_run [0; 10; 20; 2; 5; 5; 77]%Z 2 1 2
    = Ok (2 * (1 + 2 * 1), image)
    /\ unfilter_scanlines [0; 10; 20; 2; 5; 5; 77]%Z 2 1 2 = Ok image
    /\ length image = 2 * (2 * 1)
    /\ unfilter_scanlines
         (firstn (2 * (1 + 2 * 1)) [0; 10; 20; 2; 5; 5; 77]%Z) 2 1 2
       = Ok image.
Proof.
  apply (unfilter_scanlines_counts [0; 10; 20; 2; 5; 5; 77]%Z 2 1 2).
  - lia.
  - lia.
  - lia.
  - simpl. lia.
  - intros k Hk. unfold valid_filter_byte.
    destruct k as [|[|k]]; [simpl; lia | simpl; lia | lia].
Defined.

Lemma unfilter_scanlines_truncated_witness :
  (exists e, unfilter_scanlines [0; 10; 20]%Z 2 1 2 = Raise e
             /\ loop_exception e)
  /\
  (exists image,
     unfilter_scanlines [0; 10; 20; 0; 30]%Z 2 1 2 = Ok image
     /\ length image = length [0; 10; 20; 0; 30]%Z - 2
     /\ length image < 2 * (2 * 1)).
Proof.
  split.
  - apply (unfilter_scanlines_truncated [0; 10; 20]%Z 2 1 2).
    + simpl. lia.
    + simpl. lia.
  - apply (unfilter_scanlines_truncated [0; 10; 20; 0; 30]%Z 2 1 2).
    + simpl. lia.
    + simpl. lia.
    + intros k Hk. unfold valid_filter_byte.
      destruct k as [|[|k]]; [simpl; lia | simpl; lia | lia].
Defined.

Lemma unfilter_scanlines_unknown_filter_witness :
  exists j,
    j <= 1
    /\ ~ valid_filter_byte [0; 10; 20; 9; 30; 40]%Z (2 * 1) j
    /\ (forall i, i < j -> valid_filter_byte [0; 10; 20; 9; 30; 40]%Z (2 * 1) i)
    /\ unfilter_scanlines [0; 10; 20; 9; 30; 40]%Z 2 1 2
       = Raise (ValueError_unknown_filter
                  (nth (j * (1 + 2 * 1)) [0; 10; 20; 9; 30; 40]%Z 0%Z)).
Proof.
  apply (unfilter_scanlines_unknown_filter [0; 10; 20; 9; 30; 40]%Z 2 1 2 1).
  - lia.
  - simpl. lia.
  - unfold valid_filter_byte. simpl. lia.
Defined.

End UnfilterFacts.

(** ** Chunk scanner and header extractor *)

Module PngFacts.
Import Png.

Lemma is_bytes_firstn n l : is_bytes l -> is_bytes (firstn n l).
Proof.
  unfold is_bytes. intros H. rewrite <- (firstn_skipn n l) in H.
  apply Forall_app in H. apply H.
Qed.

Lemma is_bytes_skipn n l : is_bytes l -> is_bytes (skipn n l).
Proof.
  unfold is_bytes. intros H. rewrite <- (firstn_skipn n l) in H.
  apply Forall_app in H. apply H.
Qed.

Lemma is_bytes_slice l a b : is_bytes l -> is_bytes (slice l a b).
Proof. intros H. unfold slice. apply is_bytes_firstn, is_bytes_skipn, H. Qed.

Lemma be32_range b0 b1 b2 b3 :
  is_byte b0 -> is_byte b1 -> is_byte b2 -> is_byte b3 ->
  0 <= be32 b0 b1 b2 b3 < 2 ^ 32.
Proof. unfold is_byte, be32. lia. Qed.

Lemma unpack_I_range b n :
  is_bytes b -> unpack_I b = Ok n -> 0 <= n < 2 ^ 32.
Proof.
  intros Hb E. destruct b as [|b0 [|b1 [|b2 [|b3 [|b4 b]]]]]; try discriminate.
  injection E as <-.
  inversion Hb as [|? ? H0 Hb0]; subst. inversion Hb0 as [|? ? H1 Hb1]; subst.
  inversion Hb1 as [|? ? H2 Hb2]; subst. inversion Hb2 as [|? ? H3 Hb3]; subst.
  apply be32_range; assumption.
Qed.

Lemma unpack_I_four b :
  length b = 4%nat -> exists n, unpack_I b = Ok n.
Proof.
  intros H. destruct b as [|b0 [|b1 [|b2 [|b3 [|b4 b]]]]]; try discriminate.
  eexists. reflexivity.
Qed.

(** *** bytes.find *)

Lemma starts_with_length pat :
  forall l, starts_with pat l = true -> (length pat <= length l)%nat.
Proof.
  induction pat as [|p pat IH]; intros l H; simpl.
  - lia.
  - destruct l as [|x l]; [discriminate|]. simpl in H.
    apply andb_prop in H. destruct H as [_ H]. apply IH in H. simpl. lia.
Qed.

Lemma find_in_bounds pat :
  forall l pos i,
    find_in pat l pos = Some i ->
    (pos <= i /\ i + length pat <= pos + length l)%nat.
Proof.
  induction l as [|x l IH]; intros pos i H; simpl in H.
  - destruct (starts_with pat []) eqn:E; [|discriminate].
    injection H as <-. apply starts_with_length in E. lia.
  - destruct (starts_with pat (x :: l)) eqn:E.
    + injection H as <-. apply starts_with_length in E. lia.
    + apply IH in H. simpl. lia.
Qed.

(** A hit of [find] lies at or after [start] and inside the buffer. *)
Lemma bytes_find_bounds data pat start :
  bytes_find data pat start <> -1 ->
  start <= bytes_find data pat start
  /\ 0 <= bytes_find data pat start
  /\ bytes_find data pat start + Z.of_nat (length pat) <= len data.
Proof.
  unfold bytes_find, len. destruct (Z.ltb_spec (Z.of_nat (length data)) start) as [Hs|Hs];
    [intros H; contradiction H; reflexivity|].
  destruct (find_in pat (skipn (Z.to_nat start) data) (Z.to_nat start))
    as [i|] eqn:E; [|intros H; contradiction H; reflexivity].
  intros _. apply find_in_bounds in E. rewrite length_skipn in E. lia.
Qed.

(** *** One pass of the scan loop *)

Lemma length_slice data a b :
  0 <= a -> a <= b -> b <= len data ->
  length (slice data a b) = Z.to_nat (b - a).
Proof.
  unfold slice, len. intros Ha Hab Hb.
  rewrite length_firstn, length_skipn. lia.
Qed.

(** A pass that extracts a record moves the cursor forward by at least
    eight bytes, and not past the end of the buffer. *)
Lemma scan_body_next data include_magic idx idx' c :
  is_bytes data ->
  scan_body data include_magic idx = Next idx' c ->
  idx + 8 <= idx' <= len data.
Proof.
  intros Hb. unfold scan_body.
  pose proof (bytes_find_bounds data IDAT idx) as Hfind.
  set (i := bytes_find data IDAT idx) in *.
  destruct (Z.eqb_spec i (-1)) as [|Hi]; [discriminate|].
  destruct (Z.ltb_spec (i - 4) 0) as [|Hl]; [discriminate|].
  destruct (unpack_I (slice data (i - 4) i)) as [n|e] eqn:U; [|discriminate].
  apply unpack_I_range in U; [|apply is_bytes_slice, Hb].
  destruct (i + 4 + n + 4 >? len data) eqn:G; [discriminate|].
  intros E. injection E as <- _.
  destruct (Hfind Hi) as (H1 & _ & _).
  rewrite Z.gtb_ltb in G. apply Z.ltb_ge in G. lia.
Qed.

(** The length field of a located tag is always four bytes long: the
    pass never fails inside [struct.unpack]. *)
Lemma scan_body_no_throw data include_magic idx e :
  scan_body data include_magic idx <> Throw e.
Proof.
  unfold scan_body.
  pose proof (bytes_find_bounds data IDAT idx) as Hfind.
  set (i := bytes_find data IDAT idx) in *.
  destruct (Z.eqb_spec i (-1)) as [|Hi]; [discriminate|].
  destruct (Z.ltb_spec (i - 4) 0) as [|Hl]; [discriminate|].
  destruct (Hfind Hi) as (_ & _ & H3). simpl in H3.
  destruct (unpack_I_four (slice data (i - 4) i)) as (n & U).
  { rewrite length_slice by lia. lia. }
  rewrite U. destruct (i + 4 + n + 4 >? len data); discriminate.
Qed.

(** A tag located at or after offset 4 has a length field before it:
    from the cursors the loop passes, the first of the two error
    messages is never printed. *)
Lemma scan_body_length_prefix data include_magic idx i :
  4 <= idx ->
  scan_body data include_magic idx <> Break (Some (InvalidChunk i)).
Proof.
  intros H4. unfold scan_body.
  pose proof (bytes_find_bounds data IDAT idx) as Hfind.
  set (j := bytes_find data IDAT idx) in *.
  destruct (Z.eqb_spec j (-1)) as [|Hj]; [discriminate|].
  destruct (Hfind Hj) as (H1 & _ & _).
  destruct (Z.ltb_spec (j - 4) 0) as [|Hl]; [lia|].
  destruct (unpack_I (slice data (j - 4) j)) as [n|e]; [|discriminate].
  destruct (j + 4 + n + 4 >? len data); discriminate.
Qed.

(** *** The scan loop *)

(** With more passes allowed than bytes are left, the loop reaches its
    exit and returns a list. *)
Lemma scan_loop_total data include_magic :
  is_bytes data ->
  forall fuel idx acc,
    (0 < fuel)%nat ->
    len data - idx < Z.of_nat fuel ->
    exists chunks, scan_loop fuel data include_magic idx acc = Some (Ok chunks).
Proof.
  intros Hb. induction fuel as [|fuel IH]; intros idx acc Hpos Hfuel; [lia|].
  simpl. destruct (Z.ltb_spec idx (len data)) as [Hlt|Hge].
  - destruct (scan_body data include_magic idx) as [d|idx' c|e] eqn:E.
    + eexists. reflexivity.
    + apply scan_body_next in E; [|exact Hb].
      apply IH; lia.
    + exfalso. exact (scan_body_no_throw _ _ _ _ E).
  - eexists. reflexivity.
Qed.

(** Passes allowed beyond that bound do not change the result. *)
Lemma scan_loop_fuel data include_magic :
  is_bytes data ->
  forall fuel1 fuel2 idx acc,
    (0 < fuel1)%nat -> len data - idx < Z.of_nat fuel1 ->
    (0 < fuel2)%nat -> len data - idx < Z.of_nat fuel2 ->
    scan_loop fuel1 data include_magic idx acc
    = scan_loop fuel2 data include_magic idx acc.
Proof.
  intros Hb. induction fuel1 as [|fuel1 IH];
    intros fuel2 idx acc Hp1 Hf1 Hp2 Hf2; [lia|].
  destruct fuel2 as [|fuel2]; [lia|].
  simpl. destruct (Z.ltb_spec idx (len data)) as [Hlt|Hge]; [|reflexivity].
  destruct (scan_body data include_magic idx) as [d|idx' c|e] eqn:E;
    try reflexivity.
  apply scan_body_next in E; [|exact Hb].
  apply IH; lia.
Qed.

(** The records of consecutive passes are appended to the accumulator,
    and a pass that stops the scan returns the accumulator as it is. *)
Lemma scan_loop_scanned data include_magic idx chunks idx' :
  is_bytes data ->
  scanned data include_magic idx chunks idx' ->
  forall d fuel acc,
    idx' < len data ->
    scan_body data include_magic idx' = Break d ->
    len data - idx < Z.of_nat fuel ->
    scan_loop fuel data include_magic idx acc = Some (Ok (acc ++ chunks)).
Proof.
  intros Hb Hs. induction Hs as [idx | idx idx1 idx2 c chunks Hlt E Hs IH];
    intros d fuel acc Hend Hbreak Hfuel.
  - destruct fuel as [|fuel]; [lia|]. simpl.
    apply Z.ltb_lt in Hend. rewrite Hend, Hbreak, app_nil_r. reflexivity.
  - destruct fuel as [|fuel]; [lia|]. simpl.
    pose proof (scan_body_next _ _ _ _ _ Hb E) as Hadv.
    apply Z.ltb_lt in Hlt. rewrite Hlt, E.
    rewrite (IH d fuel (acc ++ [c]) Hend Hbreak) by lia.
    rewrite <- app_assoc. reflexivity.
Qed.

(** C9: when the scan, after extracting the records [chunks] in
    consecutive passes from offset 8, comes to a pass that stops with one
    of the two structural errors (a chunk whose declared length plus the
    four checksum bytes runs past the end of the buffer, or a tag with no
    length field before it), [find_idat_chunks] returns exactly [chunks]:
    every record extracted before the error, in scan order. *)
Theorem find_idat_chunks_keeps_parsed
    (data : list Z) (include_magic : bool) (chunks : list chunk)
    (idx : Z) (d : diag) :
  is_bytes data ->
  firstn 8 data = png_signature ->
  scanned data include_magic 8 chunks idx ->
  idx < len data ->
  scan_body data include_magic idx = Break (Some d) ->
  find_idat_chunks data include_magic = Some (Ok chunks).
Proof.
  intros Hb Hsig Hs Hlt Hbreak.
  unfold find_idat_chunks, find_idat_chunks_fuel. rewrite Hsig. cbn [negb].
  change (bytes_eqb png_signature png_signature) with true. cbn [negb].
  apply (scan_loop_scanned data include_magic 8 chunks idx Hb Hs (Some d)
           (S (length data)) [] Hlt Hbreak).
  unfold len. lia.
Qed.

Lemma find_idat_chunks_keeps_parsed_witness :
  find_idat_chunks Samples.png_truncated_idat false
  = Some (Ok [([7], [182; 92; 176; 75])]).
Proof.
  apply (find_idat_chunks_keeps_parsed Samples.png_truncated_idat false
           [([7], [182; 92; 176; 75])] 21 (IncompleteChunk 25)).
  - repeat constructor; unfold is_byte; lia.
  - reflexivity.
  - apply (scanned_cons _ _ 8 21 21); [reflexivity | reflexivity |].
    apply scanned_nil.
  - reflexivity.
  - reflexivity.
Defined.

(** C10: for every buffer of bytes, a pass of the scan loop that does
    not leave the loop moves the cursor forward by at least eight bytes
    and never past the end of the buffer, so the cursor is a strictly
    increasing, bounded measure; [find_idat_chunks] reaches its [return]
    within the passes it is given, returns a list, and is not changed by
    allowing more passes. *)
Theorem find_idat_chunks_terminates (data : list Z) (include_magic : bool) :
  is_bytes data ->
  (forall idx idx' c,
      scan_body data include_magic idx = Next idx' c ->
      idx + 8 <= idx' <= len data)
  /\ (exists chunks, find_idat_chunks data include_magic = Some (Ok chunks))
  /\ (forall fuel,
         (length data < fuel)%nat ->
         find_idat_chunks_fuel fuel data include_magic
         = find_idat_chunks data include_magic).
Proof.
  intros Hb. split; [|split].
  - intros idx idx' c. apply scan_body_next, Hb.
  - unfold find_idat_chunks, find_idat_chunks_fuel.
    destruct (negb (bytes_eqb (firstn 8 data) png_signature)).
    + eexists. reflexivity.
    + apply scan_loop_total; [exact Hb | lia | unfold len; lia].
  - intros fuel Hfuel. unfold find_idat_chunks, find_idat_chunks_fuel.
    destruct (negb (bytes_eqb (firstn 8 data) png_signature));
      [reflexivity|].
    apply scan_loop_fuel; try exact Hb; unfold len; lia.
Qed.

Lemma find_idat_chunks_terminates_witness :
  (forall idx idx' c,
      scan_body Samples.png_truncated_idat false idx = Next idx' c ->
      idx + 8 <= idx' <= len Samples.png_truncated_idat)
  /\ (exists chunks,
         find_idat_chunks Samples.png_truncated_idat false = Some (Ok chunks))
  /\ (forall fuel,
         (length Samples.png_truncated_idat < fuel)%nat ->
         find_idat_chunks_fuel fuel Samples.png_truncated_idat false
         = find_idat_chunks Samples.png_truncated_idat false).
Proof.
  apply (find_idat_chunks_terminates Samples.png_truncated_idat false).
  repeat constructor; unfold is_byte; lia.
Defined.

(** *** Header extractor *)

(** The derivation of bytes per pixel, for a bit depth that is a byte. *)
Lemma bytes_per_pixel_of_cases bit_depth color_type bpp :
  is_byte bit_depth ->
  bytes_per_pixel_of bit_depth color_type = Some bpp ->
  0 <= bpp <= 124
  /\ (0 < bpp <-> color_type = 3 \/ 8 <= bit_depth).
Proof.
  unfold is_byte, bytes_per_pixel_of. intros Hb.
  pose proof (Z.div_mod bit_depth 8 ltac:(lia)) as Hdiv.
  pose proof (Z.mod_pos_bound bit_depth 8 ltac:(lia)) as Hmod.
  repeat match goal with
         | |- context [color_type =? ?c] =>
             destruct (Z.eqb_spec color_type c)
         end;
    intros E; try discriminate; injection E as <-; lia.
Qed.

(** One pass of the [while True] loop, with the reads spelled out. *)
Lemma ihdr_loop_pass fuel file :
  ihdr_loop (S fuel) file
  = if (length (firstn 4 file) <? 4)%nat
       || (length (firstn 4 (skipn 4 file)) <? 4)%nat
    then Some None
    else
      match unpack_I (firstn 4 file) with
      | Raise _ => Some None
      | Ok chunk_length =>
          if bytes_eqb (firstn 4 (skipn 4 file)) IHDR then
            match unpack_IIBB
                    (firstn 10 (firstn 13 (skipn 4 (skipn 4 file)))) with
            | Raise _ => Some None
            | Ok (width, height, bit_depth, color_type) =>
                match bytes_per_pixel_of bit_depth color_type with
                | Some bytes_per_pixel =>
                    Some (Some (width, height, bytes_per_pixel))
                | None => Some None
                end
            end
          else
            ihdr_loop fuel
              (skipn (Z.to_nat (chunk_length + 4)) (skipn 4 (skipn 4 file)))
      end.
Proof. reflexivity. Qed.

(** The [while True] loop reaches a [return] within one pass per byte
    left in the file, plus one. *)
Lemma ihdr_loop_total :
  forall fuel file,
    (length file < fuel)%nat -> exists r, ihdr_loop fuel file = Some r.
Proof.
  induction fuel as [|fuel IH]; intros file Hfuel; [lia|].
  rewrite ihdr_loop_pass.
  destruct ((length (firstn 4 file) <? 4)%nat
            || (length (firstn 4 (skipn 4 file)) <? 4)%nat) eqn:Hshort;
    [eexists; reflexivity|].
  apply orb_false_elim in Hshort. destruct Hshort as [H1 _].
  apply Nat.ltb_ge in H1. rewrite length_firstn in H1.
  destruct (unpack_I (firstn 4 file)) as [chunk_length|e];
    [|eexists; reflexivity].
  destruct (bytes_eqb (firstn 4 (skipn 4 file)) IHDR).
  - destruct (unpack_IIBB _) as [[[[w h] bd] ct]|e]; [|eexists; reflexivity].
    destruct (bytes_per_pixel_of bd ct); eexists; reflexivity.
  - apply IH. rewrite !length_skipn. lia.
Qed.

Lemma get_png_ihdr_info_total contents :
  exists r, get_png_ihdr_info contents = Some r.
Proof.
  unfold get_png_ihdr_info, get_png_ihdr_info_fuel, file_read.
  destruct (negb (bytes_eqb (firstn 8 contents) png_signature));
    [eexists; reflexivity|].
  apply ihdr_loop_total. rewrite length_skipn. lia.
Qed.

Lemma bytes_eqb_true (a : list Z) :
  forall b, bytes_eqb a b = true -> a = b.
Proof.
  induction a as [|x a IH]; intros [|y b] E; try discriminate; [reflexivity|].
  simpl in E. apply andb_prop in E. destruct E as [E1 E2].
  apply Z.eqb_eq in E1. apply IH in E2. congruence.
Qed.

Lemma unpack_IIBB_fields b width height bit_depth color_type :
  unpack_IIBB b = Ok (width, height, bit_depth, color_type) ->
  exists w0 w1 w2 w3 h0 h1 h2 h3,
    b = [w0; w1; w2; w3; h0; h1; h2; h3; bit_depth; color_type]
    /\ width = be32 w0 w1 w2 w3 /\ height = be32 h0 h1 h2 h3.
Proof.
  intros E.
  destruct b as [|w0 [|w1 [|w2 [|w3 [|h0 [|h1 [|h2 [|h3 [|bd [|ct [|x b]]]]]]]]]]];
    try discriminate.
  injection E as <- <- <- <-.
  exists w0, w1, w2, w3, h0, h1, h2, h3.
  split; [reflexivity | split; reflexivity].
Qed.

(** Where a successful search found its header: the bytes still to be
    read when the loop starts are whole chunks of other types, each
    skipped by its declared length plus four, then a length field, the
    type [IHDR], and the ten bytes the returned values are taken from. *)
Lemma ihdr_loop_located :
  forall fuel file width height bpp,
    ihdr_loop fuel file = Some (Some (width, height, bpp)) ->
    exists (skipped : list (list Z * list Z * list Z))
           (chunk_length_data : list Z)
           (w0 w1 w2 w3 h0 h1 h2 h3 bit_depth color_type : Z)
           (rest : list Z),
      file
      = concat (map (fun '(l, t, body) => l ++ t ++ body) skipped)
          ++ chunk_length_data ++ IHDR
          ++ [w0; w1; w2; w3; h0; h1; h2; h3; bit_depth; color_type] ++ rest
      /\ Forall (fun '(l, t, body) =>
                   length t = 4%nat /\ t <> IHDR
                   /\ exists n, unpack_I l = Ok n
                                /\ length body = Z.to_nat (n + 4))
                skipped
      /\ length chunk_length_data = 4%nat
      /\ width = be32 w0 w1 w2 w3
      /\ height = be32 h0 h1 h2 h3
      /\ bytes_per_pixel_of bit_depth color_type = Some bpp.
Proof.
  induction fuel as [|fuel IH]; intros file width height bpp E;
    [discriminate|].
  rewrite ihdr_loop_pass in E.
  destruct ((length (firstn 4 file) <? 4)%nat
            || (length (firstn 4 (skipn 4 file)) <? 4)%nat) eqn:Hshort;
    [discriminate|].
  apply orb_false_elim in Hshort. destruct Hshort as [H1 H2].
  apply Nat.ltb_ge in H1. apply Nat.ltb_ge in H2.
  assert (length (firstn 4 file) = 4%nat) as L1
    by (rewrite length_firstn in *; lia).
  assert (length (firstn 4 (skipn 4 file)) = 4%nat) as L2
    by (rewrite length_firstn in *; lia).
  assert (file = firstn 4 file ++ firstn 4 (skipn 4 file)
                   ++ skipn 4 (skipn 4 file)) as Hfile
    by (rewrite !firstn_skipn; reflexivity).
  destruct (unpack_I (firstn 4 file)) as [chunk_length|e] eqn:UI;
    [|discriminate].
  destruct (bytes_eqb (firstn 4 (skipn 4 file)) IHDR) eqn:T.
  - apply bytes_eqb_true in T.
    destruct (unpack_IIBB (firstn 10 (firstn 13 (skipn 4 (skipn 4 file)))))
      as [[[[w h] bd] ct]|e] eqn:U; [|discriminate].
    destruct (bytes_per_pixel_of bd ct) as [b|] eqn:B; [|discriminate].
    injection E as <- <- <-.
    apply unpack_IIBB_fields in U.
    destruct U as (w0 & w1 & w2 & w3 & h0 & h1 & h2 & h3 & U & Hw & Hh).
    rewrite firstn_firstn in U. change (Nat.min 10 13) with 10%nat in U.
    exists [], (firstn 4 file), w0, w1, w2, w3, h0, h1, h2, h3, bd, ct,
      (skipn 10 (skipn 4 (skipn 4 file))).
    split; [|split; [constructor | repeat split; assumption]].
    cbn [map concat app]. rewrite <- T.
    change (w0 :: w1 :: w2 :: w3 :: h0 :: h1 :: h2 :: h3 :: bd :: ct
              :: skipn 10 (skipn 4 (skipn 4 file)))
      with ([w0; w1; w2; w3; h0; h1; h2; h3; bd; ct]
              ++ skipn 10 (skipn 4 (skipn 4 file))).
    rewrite <- U, firstn_skipn. exact Hfile.
  - apply IH in E.
    destruct E as (skipped & l & w0 & w1 & w2 & w3 & h0 & h1 & h2 & h3
                   & bd & ct & rest & Hrest & Hsk & Hl & Hw & Hh & B).
    set (k := Z.to_nat (chunk_length + 4)) in *.
    assert (length (firstn k (skipn 4 (skipn 4 file))) = k) as Lk.
    { apply (f_equal (@length Z)) in Hrest.
      rewrite length_skipn, !length_app, Hl in Hrest.
      rewrite length_firstn. lia. }
    exists ((firstn 4 file, firstn 4 (skipn 4 file),
             firstn k (skipn 4 (skipn 4 file))) :: skipped),
      l, w0, w1, w2, w3, h0, h1, h2, h3, bd, ct, rest.
    split; [|split; [|repeat split; assumption]].
    + cbn [map concat]. rewrite <- !app_assoc, <- Hrest, firstn_skipn.
      exact Hfile.
    + constructor; [|exact Hsk].
      split; [exact L2|]. split.
      * intros Heq. rewrite Heq in T. discriminate T.
      * exists chunk_length. split; [exact UI | exact Lk].
Qed.

(** C5 (amended): on every buffer of bytes on which [get_png_ihdr_info]
    succeeds, the buffer is the signature, then whole chunks of types
    other than [IHDR] (each a four-byte length, a four-byte type, and
    as many further bytes as the length declares plus four), then a
    four-byte length field, the type [IHDR], and at least ten more bytes.
    The returned width and height are the big-endian values of the first
    four and the next four of those ten bytes, so they are unsigned
    32-bit values, zero not excluded; the returned bytes per pixel is what
    the color-type derivation gives for the ninth byte as bit depth and
    the tenth as color type: it lies in 0..124, and it is positive exactly
    when that color type is 3 or that bit depth is at least 8. *)
Theorem get_png_ihdr_info_geometry
    (contents : list Z) (width height bytes_per_pixel : Z) :
  is_bytes contents ->
  get_png_ihdr_info contents = Some (Some (width, height, bytes_per_pixel)) ->
  exists (skipped : list (list Z * list Z * list Z))
         (chunk_length_data : list Z)
         (w0 w1 w2 w3 h0 h1 h2 h3 bit_depth color_type : Z)
         (rest : list Z),
    contents
    = png_signature
        ++ concat (map (fun '(l, t, body) => l ++ t ++ body) skipped)
        ++ chunk_length_data ++ IHDR
        ++ [w0; w1; w2; w3; h0; h1; h2; h3; bit_depth; color_type] ++ rest
    /\ Forall (fun '(l, t, body) =>
                 length t = 4%nat /\ t <> IHDR
                 /\ exists n, unpack_I l = Ok n
                              /\ length body = Z.to_nat (n + 4))
              skipped
    /\ length chunk_length_data = 4%nat
    /\ width = be32 w0 w1 w2 w3
    /\ height = be32 h0 h1 h2 h3
    /\ bytes_per_pixel_of bit_depth color_type = Some bytes_per_pixel
    /\ 0 <= width < 2 ^ 32
    /\ 0 <= height < 2 ^ 32
    /\ 0 <= bytes_per_pixel <= 124
    /\ (0 < bytes_per_pixel <-> color_type = 3 \/ 8 <= bit_depth).
Proof.
  intros Hb E.
  unfold get_png_ihdr_info, get_png_ihdr_info_fuel, file_read in E.
  destruct (bytes_eqb (firstn 8 contents) png_signature) eqn:Hsig;
    cbn [negb] in E; [|discriminate].
  apply bytes_eqb_true in Hsig.
  apply ihdr_loop_located in E.
  destruct E as (skipped & l & w0 & w1 & w2 & w3 & h0 & h1 & h2 & h3
                 & bd & ct & rest & Hrest & Hsk & Hl & Hw & Hh & B).
  assert (contents
          = png_signature
              ++ concat (map (fun '(l, t, body) => l ++ t ++ body) skipped)
              ++ l ++ IHDR
              ++ [w0; w1; w2; w3; h0; h1; h2; h3; bd; ct] ++ rest) as Hc.
  { rewrite <- Hrest, <- Hsig. symmetry. apply firstn_skipn. }
  assert (is_bytes [w0; w1; w2; w3; h0; h1; h2; h3; bd; ct]) as Hf.
  { unfold is_bytes in *. rewrite Hc in Hb.
    do 4 (apply Forall_app in Hb; destruct Hb as [_ Hb]).
    apply Forall_app in Hb. exact (proj1 Hb). }
  unfold is_bytes in Hf. rewrite Forall_forall in Hf.
  assert (is_byte bd) as Hbd by (apply Hf; simpl; tauto).
  destruct (bytes_per_pixel_of_cases bd ct bytes_per_pixel Hbd B) as [Hr Hp].
  exists skipped, l, w0, w1, w2, w3, h0, h1, h2, h3, bd, ct, rest.
  split; [exact Hc|]. split; [exact Hsk|]. split; [exact Hl|].
  split; [exact Hw|]. split; [exact Hh|]. split; [exact B|].
  split; [rewrite Hw; apply be32_range; apply Hf; simpl; tauto|].
  split; [rewrite Hh; apply be32_range; apply Hf; simpl; tauto|].
  split; [exact Hr | exact Hp].
Qed.

Lemma get_png_ihdr_info_geometry_witness :
  exists (skipped : list (list Z * list Z * list Z))
         (chunk_length_data : list Z)
         (w0 w1 w2 w3 h0 h1 h2 h3 bit_depth color_type : Z)
         (rest : list Z),
    Samples.png_2x2_gray8
    = png_signature
        ++ concat (map (fun '(l, t, body) => l ++ t ++ body) skipped)
        ++ chunk_length_data ++ IHDR
        ++ [w0; w1; w2; w3; h0; h1; h2; h3; bit_depth; color_type] ++ rest
    /\ Forall (fun '(l, t, body) =>
                 length t = 4%nat /\ t <> IHDR
                 /\ exists n, unpack_I l = Ok n
                              /\ length body = Z.to_nat (n + 4))
              skipped
    /\ length chunk_length_data = 4%nat
    /\ 2 = be32 w0 w1 w2 w3
    /\ 2 = be32 h0 h1 h2 h3
    /\ bytes_per_pixel_of bit_depth color_type = Some 1
    /\ 0 <= 2 < 2 ^ 32
    /\ 0 <= 2 < 2 ^ 32
    /\ 0 <= 1 <= 124
    /\ (0 < 1 <-> color_type = 3 \/ 8 <= bit_depth).
Proof.
  apply (get_png_ihdr_info_geometry Samples.png_2x2_gray8 2 2 1).
  - repeat constructor; unfold is_byte; lia.
  - reflexivity.
Defined.

(** Two buffers on which the call succeeds without a positive geometry:
    the well-formed header of a 1x1 grayscale image of bit depth 1 gives
    zero bytes per pixel, and a header that declares width 0 and height 0
    is accepted and gives both back as zero. *)
Lemma get_png_ihdr_info_not_positive :
  (is_bytes Samples.png_1bit_gray
   /\ get_png_ihdr_info Samples.png_1bit_gray = Some (Some (1, 1, 0))
   /\ ~ (0 < 0))
  /\ (is_bytes Samples.png_zero_size
      /\ get_png_ihdr_info Samples.png_zero_size = Some (Some (0, 0, 1))
      /\ ~ (0 < 0)).
Proof.
  split; (split; [|split]).
  - repeat constructor; unfold is_byte; lia.
  - reflexivity.
  - lia.
  - repeat constructor; unfold is_byte; lia.
  - reflexivity.
  - lia.
Qed.

End PngFacts.

(** ** Unfilter engine: what a returned row and a returned image are *)

Module UnfilterLaws.
Import Unfilter UnfilterSpec LoopFacts UnfilterFacts.
Local Open Scope nat_scope.

(** A loop that returns went through its invariant. *)
Lemma for_range_ok_inv {St : Type} (Inv : nat -> St -> Prop)
    (body : nat -> St -> result St) (count : nat) :
  forall start st st',
    Inv start st ->
    (forall i s s', start <= i < start + count -> Inv i s ->
                    body i s = Ok s' -> Inv (S i) s') ->
    for_range start count body st = Ok st' ->
    Inv (start + count) st'.
Proof.
  induction count as [|count IH]; intros start st st' H0 Hstep E; simpl in E.
  - injection E as <-. rewrite Nat.add_0_r. exact H0.
  - destruct (body start st) as [s1|e] eqn:E1; [|discriminate].
    simpl in E. replace (start + S count) with (S start + count) by lia.
    apply (IH (S start) s1 st').
    + apply (Hstep start st s1); [lia | exact H0 | exact E1].
    + intros i s s' Hi. apply Hstep. lia.
    + exact E.
Qed.

Lemma bind_ok {A B : Type} (r : result A) (k : A -> result B) (b : B) :
  bind r k = Ok b -> exists a, r = Ok a /\ k a = Ok b.
Proof.
  destruct r as [a|e]; simpl; intros E; [|discriminate].
  exists a. split; [reflexivity | exact E].
Qed.

Lemma getitem_ok (l : list Z) (i : nat) (x : Z) :
  getitem l i = Ok x -> i < length l /\ x = nth i l 0%Z.
Proof.
  unfold getitem. destruct (nth_error l i) as [y|] eqn:E; [|discriminate].
  intros H. injection H as <-.
  assert (i < length l) as Hi by (apply nth_error_Some; congruence).
  split; [exact Hi|]. rewrite (nth_error_nth' l 0%Z Hi) in E. congruence.
Qed.

(** The loops of the helpers append one value per pass. If every pass
    that returns appends a value [v] with [V i r v], where [r] is the row
    built so far, and [V] only looks at what is already built, then a
    returned row has the length of the loop and satisfies [V] at every
    index. *)
Lemma append_loop_values (n : nat) (body : nat -> list Z -> result (list Z))
    (V : nat -> list Z -> Z -> Prop) r :
  (forall i r0 r1, i < n -> length r0 = i -> body i r0 = Ok r1 ->
                   exists v, r1 = r0 ++ [v] /\ V i r0 v) ->
  (forall i r0 t v, length r0 = i -> V i r0 v -> V i (r0 ++ t) v) ->
  (forall i r0 t v, i < length r0 -> V i r0 v -> V i (r0 ++ t) v) ->
  for_range 0 n body [] = Ok r ->
  length r = n /\ forall i, i < n -> V i r (nth i r 0%Z).
Proof.
  intros Hbody Hnew Hold E.
  apply (for_range_ok_inv
           (fun k r0 => length r0 = k
                        /\ forall i, i < k -> V i r0 (nth i r0 0%Z))
           body n 0 [] r); [| |exact E].
  - split; [reflexivity | intros i Hi; lia].
  - intros k r0 r1 Hk [Hlen Hval] Ek.
    destruct (Hbody k r0 r1 ltac:(lia) Hlen Ek) as (v & -> & Hv).
    split; [rewrite length_app, Hlen; simpl; lia|].
    intros i Hi. destruct (Nat.eq_dec i k) as [->|Hne].
    + rewrite app_nth2 by lia. rewrite Hlen, Nat.sub_diag. simpl.
      apply Hnew; assumption.
    + rewrite app_nth1 by lia. apply Hold; [lia|]. apply Hval. lia.
Qed.

(** The loops of Sub, Average and Paeth: the appended value is a function
    [F] of the index and of the byte [bytes_per_pixel] places to the left
    in the row built so far (zero when there is none). *)
Lemma left_loop_values (n bpp : nat) (F : nat -> Z -> Z)
    (body : nat -> list Z -> result (list Z)) r :
  (forall i r0 r1, i < n -> length r0 = i -> body i r0 = Ok r1 ->
     (bpp <= i -> i - bpp < i)
     /\ r1 = r0 ++ [F i (if bpp <=? i then nth (i - bpp) r0 0%Z else 0%Z)]) ->
  for_range 0 n body [] = Ok r ->
  length r = n
  /\ forall i, i < n ->
       nth i r 0%Z = F i (if bpp <=? i then nth (i - bpp) r 0%Z else 0%Z).
Proof.
  intros Hbody E.
  destruct (append_loop_values n body
              (fun i r0 v =>
                 (bpp <= i -> i - bpp < length r0)
                 /\ v = F i (if bpp <=? i then nth (i - bpp) r0 0%Z else 0%Z))
              r) as [Hlen Hval]; [| | |exact E|].
  - intros i r0 r1 Hi Hl Ei.
    destruct (Hbody i r0 r1 Hi Hl Ei) as [Hside ->].
    eexists. split; [reflexivity|]. split; [rewrite Hl; exact Hside | reflexivity].
  - intros i r0 t v Hl [Hside ->]. split.
    + intros Hb. rewrite length_app. specialize (Hside Hb). lia.
    + destruct (bpp <=? i) eqn:B; [|reflexivity].
      apply Nat.leb_le in B. rewrite app_nth1 by (apply Hside, B). reflexivity.
  - intros i r0 t v Hl [Hside ->]. split.
    + intros Hb. rewrite length_app. lia.
    + destruct (bpp <=? i) eqn:B; [|reflexivity].
      rewrite app_nth1 by lia. reflexivity.
  - split; [exact Hlen|]. intros i Hi. apply (Hval i Hi).
Qed.

Lemma left_lookup_value (r0 : list Z) bpp i l :
  length r0 = i ->
  (if bpp <=? i then getitem r0 (i - bpp) else Ok 0%Z) = Ok l ->
  (bpp <= i -> i - bpp < i)
  /\ l = (if bpp <=? i then nth (i - bpp) r0 0%Z else 0%Z).
Proof.
  intros Hl E. destruct (bpp <=? i) eqn:B.
  - apply getitem_ok in E. destruct E as [Hlt ->]. split; [lia | reflexivity].
  - injection E as <-. apply Nat.leb_gt in B. split; [lia | reflexivity].
Qed.

Lemma up_lookup_value prev i u :
  (if prev_truthy prev then prev_getitem prev i else Ok 0%Z) = Ok u ->
  u = match prev with Some p => nth i p 0%Z | None => 0%Z end.
Proof.
  destruct prev as [[|p0 p]|]; simpl; intros E.
  - injection E as <-. destruct i; reflexivity.
  - apply getitem_ok in E. apply E.
  - injection E as <-. reflexivity.
Qed.

Lemma upper_left_lookup_value prev bpp i u :
  (if prev_truthy prev && (bpp <=? i)
   then prev_getitem prev (i - bpp) else Ok 0%Z) = Ok u ->
  u = (if bpp <=? i
       then match prev with Some p => nth (i - bpp) p 0%Z | None => 0%Z end
       else 0%Z).
Proof.
  destruct prev as [[|p0 p]|]; simpl; intros E.
  - injection E as <-. destruct (bpp <=? i); [destruct (i - bpp)|]; reflexivity.
  - destruct (bpp <=? i); [|injection E as <-; reflexivity].
    apply getitem_ok in E. apply E.
  - injection E as <-. destruct (bpp <=? i); reflexivity.
Qed.

(** *** Returned rows, helper by helper *)

Lemma unfilter_sub_values scanline bpp r :
  unfilter_sub scanline bpp = Ok r ->
  length r = length scanline
  /\ forall i, i < length scanline ->
       nth i r 0%Z
       = if i <? bpp then nth i scanline 0%Z
         else ((nth i scanline 0 + nth (i - bpp) r 0) mod 256)%Z.
Proof.
  intros E.
  apply (left_loop_values (length scanline) bpp
              (fun i l => if i <? bpp then nth i scanline 0%Z
                          else ((nth i scanline 0 + l) mod 256)%Z)) in E;
    [destruct E as [Hlen Hval] | ]; [ | ]. all: cycle 1.
  - intros i r0 r1 Hi Hl Ei. cbv beta in Ei.
    rewrite (getitem_nth scanline i Hi) in Ei.
    destruct (i <? bpp) eqn:B; cbn [bind] in Ei.
    + injection Ei as <-. apply Nat.ltb_lt in B. split; [lia | reflexivity].
    + apply Nat.ltb_ge in B. apply bind_ok in Ei. destruct Ei as (l & El & Ei).
      injection Ei as <-. apply getitem_ok in El. destruct El as [Hlt ->].
      split; [lia|].
      replace (bpp <=? i) with true by (symmetry; apply Nat.leb_le; exact B).
      reflexivity.
  - split; [exact Hlen|]. intros i Hi. rewrite (Hval i Hi).
    destruct (i <? bpp) eqn:B; [reflexivity|].
    apply Nat.ltb_ge in B.
    replace (bpp <=? i) with true by (symmetry; apply Nat.leb_le; exact B).
    reflexivity.
Qed.

Lemma unfilter_up_values scanline prev r :
  unfilter_up scanline prev = Ok r ->
  length r = length scanline
  /\ forall i, i < length scanline ->
       nth i r 0%Z
       = match prev with
         | Some ((_ :: _) as p) => ((nth i scanline 0 + nth i p 0) mod 256)%Z
         | _ => nth i scanline 0%Z
         end.
Proof.
  unfold unfilter_up. destruct prev as [[|p0 p]|]; cbn [prev_truthy negb];
    intros E; try (injection E as <-; split; [reflexivity | intros; reflexivity]).
  apply (left_loop_values (length scanline) 1
              (fun i _ => ((nth i scanline 0 + nth i (p0 :: p) 0) mod 256)%Z)) in E;
    [destruct E as [Hlen Hval] | ]; [ | ]. all: cycle 1.
  - intros i r0 r1 Hi Hl Ei. cbv beta in Ei.
    rewrite (getitem_nth scanline i Hi) in Ei. cbn [bind prev_getitem] in Ei.
    apply bind_ok in Ei. destruct Ei as (u & Eu & Ei). injection Ei as <-.
    apply getitem_ok in Eu. destruct Eu as [_ ->]. split; [lia | reflexivity].
  - split; [exact Hlen|]. intros i Hi. apply (Hval i Hi).
Qed.

Lemma unfilter_average_values scanline prev bpp r :
  unfilter_average scanline prev bpp = Ok r ->
  length r = length scanline
  /\ forall i, i < length scanline ->
       let left := if bpp <=? i then nth (i - bpp) r 0%Z else 0%Z in
       let up := match prev with Some p => nth i p 0%Z | None => 0%Z end in
       nth i r 0%Z = ((nth i scanline 0 + (left + up) / 2) mod 256)%Z.
Proof.
  intros E.
  apply (left_loop_values (length scanline) bpp
              (fun i l =>
                 ((nth i scanline 0
                   + (l + match prev with Some p => nth i p 0 | None => 0 end)
                     / 2) mod 256)%Z)) in E;
    [destruct E as [Hlen Hval] | ]; [ | ]. all: cycle 1.
  - intros i r0 r1 Hi Hl Ei. cbv beta in Ei.
    apply bind_ok in Ei. destruct Ei as (l & El & Ei).
    apply bind_ok in Ei. destruct Ei as (u & Eu & Ei).
    rewrite (getitem_nth scanline i Hi) in Ei. cbn [bind] in Ei.
    injection Ei as <-.
    apply (left_lookup_value r0 bpp i l Hl) in El. destruct El as [Hside ->].
    apply up_lookup_value in Eu. subst u. split; [exact Hside | reflexivity].
  - split; [exact Hlen|]. intros i Hi. cbv zeta. apply (Hval i Hi).
Qed.

Lemma unfilter_paeth_values scanline prev bpp r :
  unfilter_paeth scanline prev bpp = Ok r ->
  length r = length scanline
  /\ forall i, i < length scanline ->
       let left := if bpp <=? i then nth (i - bpp) r 0%Z else 0%Z in
       let up := match prev with Some p => nth i p 0%Z | None => 0%Z end in
       let upper_left :=
         if bpp <=? i
         then match prev with Some p => nth (i - bpp) p 0%Z | None => 0%Z end
         else 0%Z in
       nth i r 0%Z
       = ((nth i scanline 0 + paeth_predictor left up upper_left) mod 256)%Z.
Proof.
  intros E.
  apply (left_loop_values (length scanline) bpp
              (fun i l =>
                 ((nth i scanline 0
                   + paeth_predictor l
                       match prev with Some p => nth i p 0 | None => 0 end
                       (if (bpp <=? i)%nat
                        then match prev with
                             | Some p => nth (i - bpp)%nat p 0
                             | None => 0
                             end
                        else 0)) mod 256)%Z)) in E;
    [destruct E as [Hlen Hval] | ]; [ | ]. all: cycle 1.
  - intros i r0 r1 Hi Hl Ei. cbv beta in Ei.
    apply bind_ok in Ei. destruct Ei as (l & El & Ei).
    apply bind_ok in Ei. destruct Ei as (u & Eu & Ei).
    apply bind_ok in Ei. destruct Ei as (ul & Eul & Ei).
    rewrite (getitem_nth scanline i Hi) in Ei. cbn [bind] in Ei.
    injection Ei as <-.
    apply (left_lookup_value r0 bpp i l Hl) in El. destruct El as [Hside ->].
    apply up_lookup_value in Eu. subst u.
    apply upper_left_lookup_value in Eul. subst ul.
    split; [exact Hside | reflexivity].
  - split; [exact Hlen|]. intros i Hi. cbv zeta. apply (Hval i Hi).
Qed.

(** X1: for [bytes_per_pixel >= 1], [unfilter_sub] returns a row as long
    as its input in which the first [bytes_per_pixel] bytes are copied and
    every later byte is the input byte plus the returned byte
    [bytes_per_pixel] places to its left, modulo 256. *)
Theorem unfilter_sub_reconstructs (scanline : list Z) (bytes_per_pixel : nat) :
  1 <= bytes_per_pixel ->
  exists r,
    unfilter_sub scanline bytes_per_pixel = Ok r
    /\ length r = length scanline
    /\ forall i, i < length scanline ->
         nth i r 0%Z
         = if i <? bytes_per_pixel then nth i scanline 0%Z
           else ((nth i scanline 0 + nth (i - bytes_per_pixel) r 0) mod 256)%Z.
Proof.
  intros Hb. destruct (unfilter_sub_ok scanline bytes_per_pixel Hb) as (r & E & _).
  exists r. split; [exact E|]. apply unfilter_sub_values, E.
Qed.

Lemma unfilter_sub_reconstructs_witness :
  exists r,
    unfilter_sub [10; 20; 250; 7]%Z 2 = Ok r
    /\ length r = length [10; 20; 250; 7]%Z
    /\ forall i, i < length [10; 20; 250; 7]%Z ->
         nth i r 0%Z
         = if i <? 2 then nth i [10; 20; 250; 7]%Z 0%Z
           else ((nth i [10; 20; 250; 7] 0 + nth (i - 2) r 0) mod 256)%Z.
Proof. apply (unfilter_sub_reconstructs [10; 20; 250; 7]%Z 2). lia. Defined.

(** X2: with a previous scanline that is at least as long as the row,
    [unfilter_up] returns a row as long as its input: the input itself when
    the previous scanline is absent or empty, otherwise the byte-wise sum of
    the input and the previous scanline, modulo 256. *)
Theorem unfilter_up_reconstructs
    (scanline : list Z) (prev_scanline : option (list Z)) :
  prev_covers prev_scanline (length scanline) ->
  exists r,
    unfilter_up scanline prev_scanline = Ok r
    /\ length r = length scanline
    /\ forall i, i < length scanline ->
         nth i r 0%Z
         = match prev_scanline with
           | Some ((_ :: _) as p) => ((nth i scanline 0 + nth i p 0) mod 256)%Z
           | _ => nth i scanline 0%Z
           end.
Proof.
  intros Hc. destruct (unfilter_up_ok scanline prev_scanline Hc) as (r & E & _).
  exists r. split; [exact E|]. apply unfilter_up_values, E.
Qed.

Lemma unfilter_up_reconstructs_witness :
  exists r,
    unfilter_up [5; 250]%Z (Some [10; 20]%Z) = Ok r
    /\ length r = length [5; 250]%Z
    /\ forall i, i < length [5; 250]%Z ->
         nth i r 0%Z
         = match Some [10; 20]%Z with
           | Some ((_ :: _) as p) => ((nth i [5; 250] 0 + nth i p 0) mod 256)%Z
           | _ => nth i [5; 250]%Z 0%Z
           end.
Proof.
  apply (unfilter_up_reconstructs [5; 250]%Z (Some [10; 20]%Z)). simpl. lia.
Defined.

(** X3: for [bytes_per_pixel >= 1] and a previous scanline at least as
    long as the row, [unfilter_average] returns a row as long as its input
    in which every byte is the input byte plus the floor of half the sum of
    the returned byte [bytes_per_pixel] places to the left (zero if none)
    and the byte above (zero if there is no previous scanline), modulo
    256. *)
Theorem unfilter_average_reconstructs
    (scanline : list Z) (prev_scanline : option (list Z))
    (bytes_per_pixel : nat) :
  1 <= bytes_per_pixel ->
  prev_covers prev_scanline (length scanline) ->
  exists r,
    unfilter_average scanline prev_scanline bytes_per_pixel = Ok r
    /\ length r = length scanline
    /\ forall i, i < length scanline ->
         let left := if bytes_per_pixel <=? i
                     then nth (i - bytes_per_pixel) r 0%Z else 0%Z in
         let up := match prev_scanline with
                   | Some p => nth i p 0%Z
                   | None => 0%Z
                   end in
         nth i r 0%Z = ((nth i scanline 0 + (left + up) / 2) mod 256)%Z.
Proof.
  intros Hb Hc.
  destruct (unfilter_average_ok scanline prev_scanline bytes_per_pixel Hb Hc)
    as (r & E & _).
  exists r. split; [exact E|]. apply unfilter_average_values, E.
Qed.

Lemma unfilter_average_reconstructs_witness :
  exists r,
    unfilter_average [5; 250; 9]%Z (Some [10; 21; 255]%Z) 1 = Ok r
    /\ length r = length [5; 250; 9]%Z
    /\ forall i, i < length [5; 250; 9]%Z ->
         let left := if 1 <=? i then nth (i - 1) r 0%Z else 0%Z in
         let up := match Some [10; 21; 255]%Z with
                   | Some p => nth i p 0%Z
                   | None => 0%Z
                   end in
         nth i r 0%Z = ((nth i [5; 250; 9] 0 + (left + up) / 2) mod 256)%Z.
Proof.
  apply (unfilter_average_reconstructs [5; 250; 9]%Z (Some [10; 21; 255]%Z) 1).
  - lia.
  - simpl. lia.
Defined.

(** X4: for [bytes_per_pixel >= 1] and a previous scanline at least as
    long as the row, [unfilter_paeth] returns a row as long as its input in
    which every byte is the input byte plus the Paeth predictor of the
    returned byte to the left, the byte above and the byte above-left (each
    zero where there is none), modulo 256. *)
Theorem unfilter_paeth_reconstructs
    (scanline : list Z) (prev_scanline : option (list Z))
    (bytes_per_pixel : nat) :
  1 <= bytes_per_pixel ->
  prev_covers prev_scanline (length scanline) ->
  exists r,
    unfilter_paeth scanline prev_scanline bytes_per_pixel = Ok r
    /\ length r = length scanline
    /\ forall i, i < length scanline ->
         let left := if bytes_per_pixel <=? i
                     then nth (i - bytes_per_pixel) r 0%Z else 0%Z in
         let up := match prev_scanline with
                   | Some p => nth i p 0%Z
                   | None => 0%Z
                   end in
         let upper_left :=
           if bytes_per_pixel <=? i
           then match prev_scanline with
                | Some p => nth (i - bytes_per_pixel) p 0%Z
                | None => 0%Z
                end
           else 0%Z in
         nth i r 0%Z
         = ((nth i scanline 0 + paeth_predictor left up upper_left) mod 256)%Z.
Proof.
  intros Hb Hc.
  destruct (unfilter_paeth_ok scanline prev_scanline bytes_per_pixel Hb Hc)
    as (r & E & _).
  exists r. split; [exact E|]. apply unfilter_paeth_values, E.
Qed.

Lemma unfilter_paeth_reconstructs_witness :
  exists r,
    unfilter_paeth [5; 250; 9]%Z (Some [10; 21; 255]%Z) 1 = Ok r
    /\ length r = length [5; 250; 9]%Z
    /\ forall i, i < length [5; 250; 9]%Z ->
         let left := if 1 <=? i then nth (i - 1) r 0%Z else 0%Z in
         let up := match Some [10; 21; 255]%Z with
                   | Some p => nth i p 0%Z
                   | None => 0%Z
                   end in
         let upper_left :=
           if 1 <=? i
           then match Some [10; 21; 255]%Z with
                | Some p => nth (i - 1) p 0%Z
                | None => 0%Z
                end
           else 0%Z in
         nth i r 0%Z
         = ((nth i [5; 250; 9] 0 + paeth_predictor left up upper_left) mod 256)%Z.
Proof.
  apply (unfilter_paeth_reconstructs [5; 250; 9]%Z (Some [10; 21; 255]%Z) 1).
  - lia.
  - simpl. lia.
Defined.

(** X5: [paeth_predictor a b c] returns one of its three arguments, one
    that is nearest to [a + b - c]; among nearest ones it prefers [a], then
    [b]. *)
Theorem paeth_predictor_nearest (a b c : Z) :
  let p := (a + b - c)%Z in
  let r := paeth_predictor a b c in
  (r = a \/ r = b \/ r = c)
  /\ (Z.abs (p - r) <= Z.abs (p - a))%Z
  /\ (Z.abs (p - r) <= Z.abs (p - b))%Z
  /\ (Z.abs (p - r) <= Z.abs (p - c))%Z
  /\ (Z.abs (p - a) = Z.abs (p - r) -> r = a)
  /\ (Z.abs (p - b) = Z.abs (p - r) -> r = a \/ r = b).
Proof.
  cbv zeta. unfold paeth_predictor.
  destruct (Z.leb_spec (Z.abs (a + b - c - a)) (Z.abs (a + b - c - b)));
    destruct (Z.leb_spec (Z.abs (a + b - c - a)) (Z.abs (a + b - c - c)));
    destruct (Z.leb_spec (Z.abs (a + b - c - b)) (Z.abs (a + b - c - c)));
    cbn [andb]; lia.
Qed.

(** *** Rows of bytes *)

Lemma is_bytes_nth (l : list Z) :
  (forall i, i < length l -> is_byte (nth i l 0%Z)) -> is_bytes l.
Proof.
  intros H. unfold is_bytes. apply Forall_nth. intros i d Hi.
  rewrite (nth_indep l d 0%Z Hi). apply H, Hi.
Qed.

Lemma mod_256_is_byte (x : Z) : is_byte (x mod 256).
Proof. unfold is_byte. apply Z.mod_pos_bound. lia. Qed.

Lemma add_mod_256_cancel (x y k : Z) :
  is_byte x -> is_byte y ->
  ((x + k) mod 256 = (y + k) mod 256)%Z -> x = y.
Proof.
  unfold is_byte. intros Hx Hy E.
  pose proof (Z.div_mod (x + k) 256 ltac:(lia)) as H1.
  pose proof (Z.div_mod (y + k) 256 ltac:(lia)) as H2.
  rewrite E in H1. lia.
Qed.

Lemma unfilter_dispatch_is_bytes filter_type scanline prev bpp r :
  is_bytes scanline ->
  unfilter_dispatch filter_type scanline prev bpp = Ok r ->
  length r = length scanline /\ is_bytes r.
Proof.
  intros Hs. unfold unfilter_dispatch.
  destruct (filter_type =? 0)%Z; [intros E; injection E as <-; split;
                                   [reflexivity | exact Hs]|].
  destruct (filter_type =? 1)%Z.
  { intros E. apply unfilter_sub_values in E. destruct E as [Hl Hv].
    split; [exact Hl|]. apply is_bytes_nth. rewrite Hl. intros i Hi.
    rewrite (Hv i Hi). destruct (i <? bpp);
      [apply nth_is_byte; assumption | apply mod_256_is_byte]. }
  destruct (filter_type =? 2)%Z.
  { intros E. apply unfilter_up_values in E. destruct E as [Hl Hv].
    split; [exact Hl|]. apply is_bytes_nth. rewrite Hl. intros i Hi.
    rewrite (Hv i Hi). destruct prev as [[|p0 p]|];
      try (apply nth_is_byte; assumption). apply mod_256_is_byte. }
  destruct (filter_type =? 3)%Z.
  { intros E. apply unfilter_average_values in E. destruct E as [Hl Hv].
    split; [exact Hl|]. apply is_bytes_nth. rewrite Hl. intros i Hi.
    rewrite (Hv i Hi). apply mod_256_is_byte. }
  destruct (filter_type =? 4)%Z; [|discriminate].
  intros E. apply unfilter_paeth_values in E. destruct E as [Hl Hv].
  split; [exact Hl|]. apply is_bytes_nth. rewrite Hl. intros i Hi.
  rewrite (Hv i Hi). apply mod_256_is_byte.
Qed.

(** X6: the reconstruction of a row loses nothing: two rows of bytes that
    the scanline loop's dispatch turns into the same row, under the same
    filter type, previous scanline and bytes per pixel, are equal. *)
Theorem unfilter_dispatch_injective
    (filter_type : Z) (scanline1 scanline2 : list Z)
    (prev_scanline : option (list Z)) (bytes_per_pixel : nat) (r : list Z) :
  is_bytes scanline1 -> is_bytes scanline2 ->
  unfilter_dispatch filter_type scanline1 prev_scanline bytes_per_pixel = Ok r ->
  unfilter_dispatch filter_type scanline2 prev_scanline bytes_per_pixel = Ok r ->
  scanline1 = scanline2.
Proof.
  intros H1 H2. unfold unfilter_dispatch.
  destruct (filter_type =? 0)%Z; [congruence|].
  assert (forall i k,
             i < length scanline1 -> i < length scanline2 ->
             ((nth i scanline1 0 + k) mod 256
              = (nth i scanline2 0 + k) mod 256)%Z ->
             nth i scanline1 0%Z = nth i scanline2 0%Z) as Hcancel.
  { intros i k Hi1 Hi2. apply add_mod_256_cancel; apply nth_is_byte; assumption. }
  destruct (filter_type =? 1)%Z.
  { intros E1 E2. apply unfilter_sub_values in E1, E2.
    destruct E1 as [L1 V1], E2 as [L2 V2].
    apply (nth_ext _ _ 0%Z 0%Z); [congruence|]. intros i Hi.
    pose proof (V1 i Hi) as W1. pose proof (V2 i ltac:(lia)) as W2.
    rewrite W1 in W2. destruct (i <? bytes_per_pixel); [exact W2|].
    apply (Hcancel i _ Hi ltac:(lia) W2). }
  destruct (filter_type =? 2)%Z.
  { intros E1 E2. apply unfilter_up_values in E1, E2.
    destruct E1 as [L1 V1], E2 as [L2 V2].
    apply (nth_ext _ _ 0%Z 0%Z); [congruence|]. intros i Hi.
    pose proof (V1 i Hi) as W1. pose proof (V2 i ltac:(lia)) as W2.
    rewrite W1 in W2. destruct prev_scanline as [[|p0 p]|]; try exact W2.
    apply (Hcancel i _ Hi ltac:(lia) W2). }
  destruct (filter_type =? 3)%Z.
  { intros E1 E2. apply unfilter_average_values in E1, E2.
    destruct E1 as [L1 V1], E2 as [L2 V2]. cbv zeta in V1, V2.
    apply (nth_ext _ _ 0%Z 0%Z); [congruence|]. intros i Hi.
    pose proof (V1 i Hi) as W1. pose proof (V2 i ltac:(lia)) as W2.
    rewrite W1 in W2. apply (Hcancel i _ Hi ltac:(lia) W2). }
  destruct (filter_type =? 4)%Z; [|discriminate].
  intros E1 E2. apply unfilter_paeth_values in E1, E2.
  destruct E1 as [L1 V1], E2 as [L2 V2]. cbv zeta in V1, V2.
  apply (nth_ext _ _ 0%Z 0%Z); [congruence|]. intros i Hi.
  pose proof (V1 i Hi) as W1. pose proof (V2 i ltac:(lia)) as W2.
  rewrite W1 in W2. apply (Hcancel i _ Hi ltac:(lia) W2).
Qed.

Lemma unfilter_dispatch_injective_witness :
  [5; 250; 9]%Z = [5; 250; 9]%Z.
Proof.
  apply (unfilter_dispatch_injective 3 [5; 250; 9]%Z [5; 250; 9]%Z
           (Some [10; 21; 255]%Z) 1 [10; 9; 141]%Z).
  - repeat constructor; unfold is_byte; lia.
  - repeat constructor; unfold is_byte; lia.
  - reflexivity.
  - reflexivity.
Defined.

(** *** The image *)

Lemma scanline_body_ok data stride bpp k index image st' :
  scanline_body data stride bpp k (index, image) = Ok st' ->
  exists f r,
    index < length data
    /\ f = nth index data 0%Z
    /\ unfilter_dispatch f (firstn stride (skipn (index + 1) data))
         (previous_scanline stride image) bpp = Ok r
    /\ st' = (index + 1 + stride, image ++ r).
Proof.
  unfold scanline_body. intros E.
  apply bind_ok in E. destruct E as (f & Ef & E).
  apply bind_ok in E. destruct E as (r & Er & E).
  apply getitem_ok in Ef. destruct Ef as [Hlt ->]. injection E as <-.
  eexists. exists r. repeat split; [exact Hlt | exact Er].
Qed.

(** X7: on a buffer of bytes, an image returned by [unfilter_scanlines]
    consists of bytes and is at most [height * stride] bytes long; with
    [width = 0] or [bytes_per_pixel = 0] it is empty. *)
Theorem unfilter_scanlines_image_bytes
    (data : list Z) (width bytes_per_pixel height : nat) (image : list Z) :
  is_bytes data ->
  unfilter_scanlines data width bytes_per_pixel height = Ok image ->
  is_bytes image
  /\ length image <= height * (width * bytes_per_pixel)
  /\ (width * bytes_per_pixel = 0 -> image = []).
Proof.
  intros Hd E. unfold unfilter_scanlines in E.
  apply bind_ok in E. destruct E as (st & E & Est). injection Est as <-.
  unfold unfilter_scanlines_run in E.
  set (stride := width * bytes_per_pixel) in *.
  apply (for_range_ok_inv
           (fun k st => is_bytes (snd st) /\ length (snd st) <= k * stride))
    in E.
  - destruct E as [Hb Hl]. split; [exact Hb | split; [exact Hl|]].
    intros Hz. rewrite Hz in Hl. apply length_zero_iff_nil. lia.
  - split; [constructor | simpl; lia].
  - intros k [index img] st' _ [Hb Hl] Ek. cbn [snd] in Hb, Hl.
    apply scanline_body_ok in Ek.
    destruct Ek as (f & r & _ & _ & Er & ->). cbn [snd].
    apply unfilter_dispatch_is_bytes in Er;
      [|apply PngFacts.is_bytes_firstn, PngFacts.is_bytes_skipn, Hd].
    destruct Er as [Hlr Hbr]. rewrite length_firstn in Hlr. split.
    + apply Forall_app. split; assumption.
    + rewrite length_app. lia.
Qed.

Lemma unfilter_scanlines_image_bytes_witness :
  is_bytes [10; 20; 15; 25]%Z
  /\ length [10; 20; 15; 25]%Z <= 2 * (2 * 1)
  /\ (2 * 1 = 0 -> [10; 20; 15; 25]%Z = []).
Proof.
  apply (unfilter_scanlines_image_bytes [0; 10; 20; 2; 5; 5]%Z 2 1 2).
  - repeat constructor; unfold is_byte; lia.
  - reflexivity.
Defined.

(** The first scanline, if any, whose filter byte is missing or unknown. *)
Lemma first_problem data stride height :
  (forall k, k < height ->
             k * (1 + stride) < length data /\ valid_filter_byte data stride k)
  \/ exists k, k < height
               /\ (forall i, i < k -> i * (1 + stride) < length data
                                      /\ valid_filter_byte data stride i)
               /\ ~ (k * (1 + stride) < length data
                     /\ valid_filter_byte data stride k).
Proof.
  induction height as [|h [IH | (k & Hk & Hbefore & Hbad)]].
  - left. intros k Hk. lia.
  - destruct (lt_dec (h * (1 + stride)) (length data)) as [Hp | Hp];
      [destruct (valid_filter_byte_dec data stride h) as [Hv | Hv]|].
    + left. intros k Hk. destruct (Nat.eq_dec k h) as [->|];
        [split; assumption | apply IH; lia].
    + right. exists h. split; [lia | split; [exact IH | tauto]].
    + right. exists h. split; [lia | split; [exact IH | tauto]].
  - right. exists k. split; [lia | split; assumption].
Qed.

(** X8: the outcome of [unfilter_scanlines] is decided by the filter
    bytes. It returns an image exactly when every scanline below [height]
    has its filter byte in the buffer and in 0..4. Otherwise, at the first
    scanline where this fails, it raises [IndexError] if the filter byte is
    past the end of the buffer and the unknown-filter [ValueError] carrying
    that byte if it is not in 0..4. It raises nothing else. *)
Theorem unfilter_scanlines_outcome
    (data : list Z) (width bytes_per_pixel height : nat) :
  let stride := width * bytes_per_pixel in
  ((forall k, k < height ->
              k * (1 + stride) < length data /\ valid_filter_byte data stride k)
   /\ exists image,
        unfilter_scanlines data width bytes_per_pixel height = Ok image)
  \/
  (exists k,
      k < height
      /\ (forall i, i < k -> i * (1 + stride) < length data
                             /\ valid_filter_byte data stride i)
      /\ ((length data <= k * (1 + stride)
           /\ unfilter_scanlines data width bytes_per_pixel height
              = Raise IndexError)
          \/ (k * (1 + stride) < length data
              /\ ~ valid_filter_byte data stride k
              /\ unfilter_scanlines data width bytes_per_pixel height
                 = Raise (ValueError_unknown_filter
                            (nth (k * (1 + stride)) data 0%Z))))).
Proof.
  intros stride.
  destruct (first_problem data stride height)
    as [Hall | (k & Hk & Hbefore & Hbad)].
  - left. split; [exact Hall|].
    destruct (for_range_inv (rows_inv data stride)
                (scanline_body data stride bytes_per_pixel) height 0 (0, []))
      as (st & E & _).
    + apply rows_inv_start.
    + intros k st Hk Hinv. destruct (Hall k ltac:(lia)) as [Hp Hv].
      destruct (scanline_body_present data stride bytes_per_pixel
                  (stride_zero_or_bpp width bytes_per_pixel) k st Hinv Hp)
        as [Hok _].
      destruct (Hok Hv) as (st' & E' & Hinv' & _).
      exists st'. split; assumption.
    + exists (snd st). apply unfilter_scanlines_of_run. exact E.
  - right. exists k. split; [exact Hk | split; [exact Hbefore|]].
    assert (forall e,
               (forall st, rows_inv data stride k st ->
                           scanline_body data stride bytes_per_pixel k st
                           = Raise e) ->
               unfilter_scanlines data width bytes_per_pixel height = Raise e)
      as Hraise.
    { intros e He. apply unfilter_scanlines_of_raise.
      destruct (for_range_raises (rows_inv data stride) (fun e' => e' = e)
                  (scanline_body data stride bytes_per_pixel) height 0 (0, []) k)
        as (e' & E & ->).
      - apply rows_inv_start.
      - lia.
      - intros i st Hi Hinv. left. destruct (Hbefore i ltac:(lia)) as [Hp Hv].
        destruct (scanline_body_present data stride bytes_per_pixel
                    (stride_zero_or_bpp width bytes_per_pixel) i st Hinv Hp)
          as [Hok _].
        destruct (Hok Hv) as (st' & E' & Hinv' & _).
        exists st'. split; assumption.
      - intros st Hinv. exists e. split; [apply He, Hinv | reflexivity].
      - exact E. }
    destruct (lt_dec (k * (1 + stride)) (length data)) as [Hp | Hp].
    + right. split; [exact Hp|].
      assert (~ valid_filter_byte data stride k) as Hv by tauto.
      split; [exact Hv|]. apply Hraise. intros st Hinv.
      destruct (scanline_body_present data stride bytes_per_pixel
                  (stride_zero_or_bpp width bytes_per_pixel) k st Hinv Hp)
        as [_ Hbadrow].
      apply Hbadrow, Hv.
    + left. split; [lia|]. apply Hraise. intros st Hinv.
      apply (scanline_body_absent data stride bytes_per_pixel); [exact Hinv | lia].
Qed.

Lemma for_range_split {St : Type} (body : nat -> St -> result St) (n m : nat) :
  forall start st,
    for_range start (n + m) body st
    = (st' <- for_range start n body st ;; for_range (start + n) m body st').
Proof.
  induction n as [|n IH]; intros start st; simpl.
  - rewrite Nat.add_0_r. reflexivity.
  - destruct (body start st) as [s1|e]; simpl; [|reflexivity].
    rewrite IH. replace (S start + n) with (start + S n) by lia. reflexivity.
Qed.

(** X9: the image grows by appending and earlier rows do not depend on
    later ones: if [unfilter_scanlines] returns for [height2] scanlines, it
    returns for every [height1 <= height2], and that image is a prefix of
    the one for [height2]. *)
Theorem unfilter_scanlines_prefix
    (data : list Z) (width bytes_per_pixel height1 height2 : nat)
    (image2 : list Z) :
  height1 <= height2 ->
  unfilter_scanlines data width bytes_per_pixel height2 = Ok image2 ->
  exists image1 rest,
    unfilter_scanlines data width bytes_per_pixel height1 = Ok image1
    /\ image2 = image1 ++ rest.
Proof.
  intros Hh E. unfold unfilter_scanlines in *.
  apply bind_ok in E. destruct E as (st2 & E & Est). injection Est as <-.
  unfold unfilter_scanlines_run in *.
  set (stride := width * bytes_per_pixel) in *.
  replace height2 with (height1 + (height2 - height1)) in E by lia.
  rewrite for_range_split in E.
  apply bind_ok in E. destruct E as (st1 & E1 & E2).
  rewrite E1. cbn [bind]. exists (snd st1).
  apply (for_range_ok_inv (fun _ st => exists rest, snd st = snd st1 ++ rest))
    in E2.
  - destruct E2 as (rest & Hrest). exists rest. split; [reflexivity | exact Hrest].
  - exists []. rewrite app_nil_r. reflexivity.
  - intros k [index img] st' _ (rest & Hrest) Ek. cbn [snd] in Hrest.
    apply scanline_body_ok in Ek. destruct Ek as (f & r & _ & _ & _ & ->).
    exists (rest ++ r). cbn [snd]. rewrite Hrest, app_assoc. reflexivity.
Qed.

Lemma unfilter_scanlines_prefix_witness :
  exists image1 rest,
    unfilter_scanlines [0; 10; 20; 2; 5; 5]%Z 2 1 1 = Ok image1
    /\ [10; 20; 15; 25]%Z = image1 ++ rest.
Proof.
  apply (unfilter_scanlines_prefix [0; 10; 20; 2; 5; 5]%Z 2 1 1 2).
  - lia.
  - reflexivity.
Defined.

(** X10: when every scanline below [height] has its filter byte in the
    buffer and that byte is 0 (None), [unfilter_scanlines] returns the
    buffer with the filter bytes taken out: the concatenation, in order, of
    the [stride] bytes (fewer at the end of the buffer) that follow each
    filter byte. *)
Theorem unfilter_scanlines_none
    (data : list Z) (width bytes_per_pixel height : nat) :
  (forall k, k < height ->
             k * (1 + width * bytes_per_pixel) < length data
             /\ nth (k * (1 + width * bytes_per_pixel)) data 0%Z = 0%Z) ->
  unfilter_scanlines data width bytes_per_pixel height
  = Ok (concat
          (map (fun k =>
                  firstn (width * bytes_per_pixel)
                    (skipn (k * (1 + width * bytes_per_pixel) + 1) data))
               (seq 0 height))).
Proof.
  intros Hrows. set (stride := width * bytes_per_pixel) in *.
  destruct (for_range_inv
              (fun k st =>
                 st = (k * (1 + stride),
                       concat (map (fun j => firstn stride
                                               (skipn (j * (1 + stride) + 1) data))
                                 (seq 0 k))))
              (scanline_body data stride bytes_per_pixel) height 0 (0, []))
    as (st & E & ->).
  - reflexivity.
  - intros k st Hk ->. destruct (Hrows k ltac:(lia)) as [Hp Hz].
    eexists. split.
    + unfold scanline_body. rewrite (getitem_nth data _ Hp), Hz.
      cbn [bind]. unfold unfilter_dispatch. cbn [Z.eqb bind]. reflexivity.
    + rewrite seq_S, map_app, concat_app. cbn [map concat Nat.add].
      rewrite app_nil_r. f_equal. lia.
  - rewrite (unfilter_scanlines_of_run data width bytes_per_pixel height _ E).
    reflexivity.
Qed.

Lemma unfilter_scanlines_none_witness :
  unfilter_scanlines [0; 10; 20; 0; 30; 40]%Z 2 1 2
  = Ok (concat
          (map (fun k => firstn (2 * 1)
                           (skipn (k * (1 + 2 * 1) + 1) [0; 10; 20; 0; 30; 40]%Z))
               (seq 0 2))).
Proof.
  apply (unfilter_scanlines_none [0; 10; 20; 0; 30; 40]%Z 2 1 2).
  intros k Hk. destruct k as [|[|k]]; [simpl; lia | simpl; lia | lia].
Defined.

(** *** The first row *)

Lemma paeth_predictor_left_only (a : Z) : paeth_predictor a 0 0 = a.
Proof.
  unfold paeth_predictor.
  destruct (Z.leb_spec (Z.abs (a + 0 - 0 - a)) (Z.abs (a + 0 - 0 - 0)));
    destruct (Z.leb_spec (Z.abs (a + 0 - 0 - a)) (Z.abs (a + 0 - 0 - 0)));
    cbn [andb]; try reflexivity; lia.
Qed.

(** X11: on a row of bytes with no previous scanline (the first row),
    [unfilter_paeth] computes what [unfilter_sub] computes, for every
    [bytes_per_pixel], the exception included. *)
Theorem unfilter_paeth_first_row (scanline : list Z) (bytes_per_pixel : nat) :
  is_bytes scanline ->
  unfilter_paeth scanline None bytes_per_pixel
  = unfilter_sub scanline bytes_per_pixel.
Proof.
  intros Hs. unfold unfilter_paeth, unfilter_sub.
  apply (for_range_agree (fun _ _ => True)); [exact I|].
  intros i r Hi _. split; [|intros; exact I].
  assert (i < length scanline) as Hi' by lia.
  rewrite (getitem_nth scanline i Hi'). cbn [prev_truthy andb bind].
  pose proof (nth_is_byte scanline i Hs Hi') as Hb.
  destruct (i <? bytes_per_pixel) eqn:B.
  - apply Nat.ltb_lt in B.
    replace (bytes_per_pixel <=? i) with false
      by (symmetry; apply Nat.leb_gt; lia).
    cbn [bind]. rewrite paeth_predictor_left_only, Z.add_0_r.
    rewrite Z.mod_small by exact Hb. reflexivity.
  - apply Nat.ltb_ge in B.
    replace (bytes_per_pixel <=? i) with true
      by (symmetry; apply Nat.leb_le; lia).
    destruct (getitem r (i - bytes_per_pixel)) as [l|e]; cbn [bind];
      [|reflexivity].
    rewrite paeth_predictor_left_only. reflexivity.
Qed.

Lemma unfilter_paeth_first_row_witness :
  unfilter_paeth [10; 20; 250; 7]%Z None 2 = unfilter_sub [10; 20; 250; 7]%Z 2.
Proof.
  apply (unfilter_paeth_first_row [10; 20; 250; 7]%Z 2).
  repeat constructor; unfold is_byte; lia.
Defined.

Lemma getitem_zeros (n i : nat) :
  i < n -> getitem (repeat 0%Z n) i = Ok 0%Z.
Proof.
  intros Hi. rewrite getitem_nth by (rewrite repeat_length; exact Hi).
  rewrite nth_repeat. reflexivity.
Qed.

Lemma zeros_truthy (n : nat) :
  0 < n -> prev_truthy (Some (repeat 0%Z n)) = true.
Proof. destruct n; [lia | reflexivity]. Qed.

(** X12: for a row of bytes, an absent previous scanline and a previous
    scanline of zeros give the same result, whatever the filter type and
    [bytes_per_pixel]. *)
Theorem unfilter_dispatch_zero_prev
    (filter_type : Z) (scanline : list Z) (bytes_per_pixel : nat) :
  is_bytes scanline ->
  unfilter_dispatch filter_type scanline None bytes_per_pixel
  = unfilter_dispatch filter_type scanline
      (Some (repeat 0%Z (length scanline))) bytes_per_pixel.
Proof.
  intros Hs. unfold unfilter_dispatch.
  destruct (filter_type =? 0)%Z; [reflexivity|].
  destruct (filter_type =? 1)%Z; [reflexivity|].
  destruct (filter_type =? 2)%Z.
  { unfold unfilter_up.
    destruct scanline as [|x tl] eqn:Es; [reflexivity|].
    rewrite <- Es in *. rewrite zeros_truthy by (rewrite Es; simpl; lia).
    cbn [prev_truthy negb]. symmetry. apply rebuild_loop. intros i Hi.
    rewrite (getitem_nth scanline i Hi). cbn [bind prev_getitem].
    rewrite getitem_zeros by exact Hi. cbn [bind].
    rewrite Z.add_0_r, Z.mod_small by (apply nth_is_byte; assumption).
    reflexivity. }
  destruct (filter_type =? 3)%Z.
  { unfold unfilter_average.
    apply (for_range_agree (fun _ _ => True)); [exact I|].
    intros i r Hi _. split; [|intros; exact I].
    rewrite zeros_truthy by lia. cbn [prev_truthy prev_getitem].
    rewrite getitem_zeros by lia. reflexivity. }
  destruct (filter_type =? 4)%Z; [|reflexivity].
  unfold unfilter_paeth.
  apply (for_range_agree (fun _ _ => True)); [exact I|].
  intros i r Hi _. split; [|intros; exact I].
  rewrite zeros_truthy by lia. cbn [prev_truthy prev_getitem andb].
  rewrite getitem_zeros by lia.
  destruct (bytes_per_pixel <=? i); [|reflexivity].
  rewrite getitem_zeros by lia. reflexivity.
Qed.

Lemma unfilter_dispatch_zero_prev_witness :
  unfilter_dispatch 3 [10; 20; 250; 7]%Z None 2
  = unfilter_dispatch 3 [10; 20; 250; 7]%Z
      (Some (repeat 0%Z (length [10; 20; 250; 7]%Z))) 2.
Proof.
  apply (unfilter_dispatch_zero_prev 3 [10; 20; 250; 7]%Z 2).
  repeat constructor; unfold is_byte; lia.
Defined.

End UnfilterLaws.

(** ** CRC engine: linearity, chaining and the residue *)

Module Crc32Laws.
Import Crc32 Crc32Facts.

(** Equations between exclusive-ors, bit by bit. *)
Ltac xor_bits :=
  apply Z.bits_inj'; intros ?n _; rewrite ?Z.lxor_spec;
  repeat match goal with
         | |- context [Z.testbit ?a ?n] => destruct (Z.testbit a n)
         end;
  reflexivity.

Lemma lxor_shuffle a b c d :
  Z.lxor (Z.lxor a b) (Z.lxor c d) = Z.lxor (Z.lxor a c) (Z.lxor b d).
Proof. xor_bits. Qed.

Lemma lxor_cancel_l a b : Z.lxor a (Z.lxor a b) = b.
Proof. xor_bits. Qed.

Lemma truthy_low_bit x : truthy (Z.land x 1) = Z.testbit x 0.
Proof.
  change 1 with (Z.ones 1). rewrite Z.land_ones by lia.
  change (2 ^ 1) with 2. rewrite <- Z.bit0_mod.
  destruct (Z.testbit x 0); reflexivity.
Qed.

Lemma truthy_top_bit x : truthy (Z.land x 0x80000000) = Z.testbit x 31.
Proof.
  assert (Z.land x 0x80000000 = if Z.testbit x 31 then 0x80000000 else 0) as ->.
  { apply Z.bits_inj'. intros n Hn. rewrite Z.land_spec.
    change 0x80000000 with (2 ^ 31). rewrite Z.pow2_bits_eqb by lia.
    destruct (Z.eqb_spec 31 n) as [<-|Hne].
    - destruct (Z.testbit x 31); [rewrite Z.pow2_bits_eqb by lia|];
        reflexivity || (rewrite Z.bits_0; reflexivity).
    - rewrite andb_false_r. destruct (Z.testbit x 31).
      + rewrite Z.pow2_bits_eqb by lia. symmetry. apply Z.eqb_neq. exact Hne.
      + rewrite Z.bits_0. reflexivity. }
  destruct (Z.testbit x 31); reflexivity.
Qed.

(** One shift of either register is linear over exclusive-or. *)
Lemma reversed_bit_lxor p x y :
  reversed_bit p (Z.lxor x y) = Z.lxor (reversed_bit p x) (reversed_bit p y).
Proof.
  unfold reversed_bit. rewrite !truthy_low_bit, Z.lxor_spec, Z.shiftr_lxor.
  destruct (Z.testbit x 0), (Z.testbit y 0); cbn [xorb]; xor_bits.
Qed.

Lemma standard_bit_lxor p x y :
  standard_bit p (Z.lxor x y) = Z.lxor (standard_bit p x) (standard_bit p y).
Proof.
  unfold standard_bit. rewrite !truthy_top_bit, Z.lxor_spec, Z.shiftl_lxor.
  destruct (Z.testbit x 31), (Z.testbit y 31); cbn [xorb]; xor_bits.
Qed.

Lemma iter_lxor (f : Z -> Z) :
  (forall x y, f (Z.lxor x y) = Z.lxor (f x) (f y)) ->
  forall n x y,
    Nat.iter n f (Z.lxor x y) = Z.lxor (Nat.iter n f x) (Nat.iter n f y).
Proof.
  intros Hf. induction n as [|n IH]; intros x y; simpl.
  - reflexivity.
  - rewrite IH. apply Hf.
Qed.

Lemma reversed_byte_lxor p c1 c2 b1 b2 :
  reversed_byte p (Z.lxor c1 c2) (Z.lxor b1 b2)
  = Z.lxor (reversed_byte p c1 b1) (reversed_byte p c2 b2).
Proof.
  unfold reversed_byte. rewrite lxor_shuffle.
  apply iter_lxor. apply reversed_bit_lxor.
Qed.

Lemma standard_byte_lxor p c1 c2 b1 b2 :
  standard_byte p (Z.lxor c1 c2) (Z.lxor b1 b2)
  = Z.lxor (standard_byte p c1 b1) (standard_byte p c2 b2).
Proof.
  unfold standard_byte. rewrite Z.shiftl_lxor, lxor_shuffle.
  rewrite (iter_lxor _ (standard_bit_lxor p)).
  apply mask32_lxor.
Qed.

Lemma fold_lxor (f : Z -> Z -> Z) :
  (forall c1 c2 b1 b2,
      f (Z.lxor c1 c2) (Z.lxor b1 b2) = Z.lxor (f c1 b1) (f c2 b2)) ->
  forall d1 d2 c1 c2,
    length d1 = length d2 ->
    fold_left f (map (fun ab => Z.lxor (fst ab) (snd ab)) (combine d1 d2))
      (Z.lxor c1 c2)
    = Z.lxor (fold_left f d1 c1) (fold_left f d2 c2).
Proof.
  intros Hf. induction d1 as [|b1 d1 IH]; intros [|b2 d2] c1 c2 Hlen;
    try discriminate.
  - reflexivity.
  - simpl. rewrite Hf. apply IH. simpl in Hlen. congruence.
Qed.

(** X13: both checksums are linear over exclusive-or: for two messages of
    the same length, the checksum of their byte-wise exclusive-or, started
    from the exclusive-or of two initial values, is the exclusive-or of the
    two checksums. *)
Theorem crc32_lxor (polynomial : Z) (data1 data2 : list Z)
    (initial_value1 initial_value2 : Z) :
  length data1 = length data2 ->
  calculate_crc32_reversed
    (map (fun ab => Z.lxor (fst ab) (snd ab)) (combine data1 data2))
    polynomial (Z.lxor initial_value1 initial_value2)
  = Z.lxor (calculate_crc32_reversed data1 polynomial initial_value1)
           (calculate_crc32_reversed data2 polynomial initial_value2)
  /\
  calculate_crc32_standard
    (map (fun ab => Z.lxor (fst ab) (snd ab)) (combine data1 data2))
    polynomial (Z.lxor initial_value1 initial_value2)
  = Z.lxor (calculate_crc32_standard data1 polynomial initial_value1)
           (calculate_crc32_standard data2 polynomial initial_value2).
Proof.
  intros Hlen. unfold calculate_crc32_reversed, calculate_crc32_standard.
  split.
  - rewrite (fold_lxor _ (reversed_byte_lxor polynomial)) by exact Hlen.
    apply lxor_shuffle.
  - rewrite (fold_lxor _ (standard_byte_lxor polynomial)) by exact Hlen.
    apply lxor_shuffle.
Qed.

Lemma crc32_lxor_witness :
  calculate_crc32_reversed
    (map (fun ab => Z.lxor (fst ab) (snd ab)) (combine [1; 2; 3] [7; 200; 9]))
    reversed_polynomial (Z.lxor 0xFFFFFFFF 0)
  = Z.lxor (calculate_crc32_reversed [1; 2; 3] reversed_polynomial 0xFFFFFFFF)
           (calculate_crc32_reversed [7; 200; 9] reversed_polynomial 0)
  /\
  calculate_crc32_standard
    (map (fun ab => Z.lxor (fst ab) (snd ab)) (combine [1; 2; 3] [7; 200; 9]))
    reversed_polynomial (Z.lxor 0xFFFFFFFF 0)
  = Z.lxor (calculate_crc32_standard [1; 2; 3] reversed_polynomial 0xFFFFFFFF)
           (calculate_crc32_standard [7; 200; 9] reversed_polynomial 0).
Proof.
  apply (crc32_lxor reversed_polynomial [1; 2; 3] [7; 200; 9] 0xFFFFFFFF 0).
  reflexivity.
Defined.

(** X14: a checksum can be continued: the checksum of [data1 ++ data2] is
    the checksum of [data2] started from the register left by [data1]
    (the checksum of [data1] exclusive-or the initial value), exclusive-or
    the checksum of [data1]. This holds in both modes. *)
Theorem crc32_app (polynomial initial_value : Z) (data1 data2 : list Z) :
  (let crc1 := calculate_crc32_reversed data1 polynomial initial_value in
   calculate_crc32_reversed (data1 ++ data2) polynomial initial_value
   = Z.lxor (calculate_crc32_reversed data2 polynomial
               (Z.lxor crc1 initial_value))
            crc1)
  /\
  (let crc1 := calculate_crc32_standard data1 polynomial initial_value in
   calculate_crc32_standard (data1 ++ data2) polynomial initial_value
   = Z.lxor (calculate_crc32_standard data2 polynomial
               (Z.lxor crc1 initial_value))
            crc1).
Proof.
  cbv zeta. unfold calculate_crc32_reversed, calculate_crc32_standard.
  rewrite !fold_left_app. split.
  - set (c := fold_left (reversed_byte polynomial) data1 initial_value).
    replace (Z.lxor (Z.lxor c initial_value) initial_value) with c by xor_bits.
    generalize (fold_left (reversed_byte polynomial) data2 c). intros z.
    xor_bits.
  - set (c := fold_left (standard_byte polynomial) data1 initial_value).
    replace (Z.lxor (Z.lxor c initial_value) initial_value) with c by xor_bits.
    generalize (fold_left (standard_byte polynomial) data2 c). intros z.
    xor_bits.
Qed.

(** *** The residue of the reflected mode *)

Lemma reversed_bit_even p x :
  Z.testbit x 0 = false -> reversed_bit p x = Z.shiftr x 1.
Proof. intros H. unfold reversed_bit. rewrite truthy_low_bit, H. reflexivity. Qed.

(** Bits that enter [n] places up leave the register unchanged after [n]
    shifts. *)
Lemma reversed_iter_shiftl p n b :
  Nat.iter n (reversed_bit p) (Z.shiftl b (Z.of_nat n)) = b.
Proof.
  induction n as [|n IH].
  - simpl. apply Z.shiftl_0_r.
  - rewrite Nat.iter_succ_r, reversed_bit_even
      by (apply Z.shiftl_spec_low; lia).
    rewrite Z.shiftr_shiftl_l by lia.
    replace (Z.of_nat (S n) - 1) with (Z.of_nat n) by lia. exact IH.
Qed.

Lemma reversed_iter_absorb p n x b :
  Z.lxor (Nat.iter n (reversed_bit p) x) b
  = Nat.iter n (reversed_bit p) (Z.lxor x (Z.shiftl b (Z.of_nat n))).
Proof.
  rewrite (iter_lxor _ (reversed_bit_lxor p)), reversed_iter_shiftl.
  reflexivity.
Qed.

(** Four bytes fed one after the other are one 32-bit word fed at once. *)
Lemma reversed_four_bytes p c b0 b1 b2 b3 :
  fold_left (reversed_byte p) [b0; b1; b2; b3] c
  = Nat.iter 32 (reversed_bit p)
      (Z.lxor c
         (Z.lxor (Z.lxor (Z.lxor b0 (Z.shiftl b1 8)) (Z.shiftl b2 16))
                 (Z.shiftl b3 24))).
Proof.
  cbn [fold_left]. unfold reversed_byte.
  rewrite (reversed_iter_absorb p 8 _ b1), <- (Nat.iter_add 8 8).
  rewrite (reversed_iter_absorb p (8 + 8) _ b2), <- (Nat.iter_add 8 (8 + 8)).
  rewrite (reversed_iter_absorb p (8 + (8 + 8)) _ b3),
    <- (Nat.iter_add 8 (8 + (8 + 8))).
  change (8 + (8 + (8 + 8)))%nat with 32%nat.
  change (Z.of_nat 8) with 8. change (Z.of_nat (8 + 8)) with 16.
  change (Z.of_nat (8 + (8 + 8))) with 24.
  f_equal. rewrite !Z.lxor_assoc. reflexivity.
Qed.

Lemma testbit_byte_of v k n :
  0 <= k -> 0 <= n ->
  Z.testbit (Z.shiftl (Z.land (Z.shiftr v k) 255) k) n
  = (k <=? n) && (n <? k + 8) && Z.testbit v n.
Proof.
  intros Hk Hn. destruct (Z.leb_spec k n) as [Hle|Hlt].
  - rewrite Z.shiftl_spec by lia. rewrite Z.land_spec, Z.shiftr_spec by lia.
    change 255 with (Z.ones 8). rewrite Z.testbit_ones_nonneg by lia.
    replace (n - k + k) with n by lia.
    destruct (Z.ltb_spec (n - k) 8), (Z.ltb_spec n (k + 8)); try lia;
      cbn [andb]; rewrite ?andb_true_r, ?andb_false_r; reflexivity.
  - rewrite Z.shiftl_spec_low by lia. reflexivity.
Qed.

(** A 32-bit value is the exclusive-or of its four bytes in place. *)
Lemma le_bytes_combine v :
  is_u32 v ->
  Z.lxor (Z.lxor (Z.lxor (Z.land v 255) (Z.shiftl (Z.land (Z.shiftr v 8) 255) 8))
                 (Z.shiftl (Z.land (Z.shiftr v 16) 255) 16))
         (Z.shiftl (Z.land (Z.shiftr v 24) 255) 24)
  = v.
Proof.
  intros Hv. apply Z.bits_inj'. intros n Hn.
  rewrite !Z.lxor_spec.
  replace (Z.land v 255) with (Z.shiftl (Z.land (Z.shiftr v 0) 255) 0)
    by (rewrite Z.shiftl_0_r, Z.shiftr_0_r; reflexivity).
  rewrite !testbit_byte_of by lia.
  assert (32 <= n -> Z.testbit v n = false) as Hhigh.
  { intros H. rewrite <- (mask32_id v Hv), mask32_mod.
    apply Z.mod_pow2_bits_high. lia. }
  destruct (Z.leb_spec 0 n), (Z.ltb_spec n (0 + 8)), (Z.leb_spec 8 n),
    (Z.ltb_spec n (8 + 8)), (Z.leb_spec 16 n), (Z.ltb_spec n (16 + 8)),
    (Z.leb_spec 24 n), (Z.ltb_spec n (24 + 8)); try lia;
    cbn [andb xorb]; rewrite ?xorb_false_r, ?xorb_false_l; try reflexivity.
  rewrite Hhigh by lia. reflexivity.
Qed.

(** X15: in the reflected mode, for every message of bytes and every
    32-bit polynomial and initial value, the checksum of the message
    followed by the four bytes of its own checksum, low byte first, does
    not depend on the message: it is the initial value shifted 32 times,
    exclusive-or the initial value. With the default polynomial and initial
    value this constant is [0x2144DF1C]. *)
Theorem crc32_reversed_residue (data : list Z) (polynomial initial_value : Z) :
  is_bytes data -> is_u32 polynomial -> is_u32 initial_value ->
  let crc := calculate_crc32_reversed data polynomial initial_value in
  calculate_crc32_reversed
    (data ++ [Z.land crc 255; Z.land (Z.shiftr crc 8) 255;
              Z.land (Z.shiftr crc 16) 255; Z.land (Z.shiftr crc 24) 255])
    polynomial initial_value
  = Z.lxor (Nat.iter 32 (reversed_bit polynomial) initial_value) initial_value
  /\ Z.lxor (Nat.iter 32 (reversed_bit reversed_polynomial)
               default_initial_value) default_initial_value
     = 0x2144DF1C.
Proof.
  intros Hd Hp Hi crc. split; [|vm_compute; reflexivity].
  assert (is_u32 crc) as Hcrc.
  { unfold crc, calculate_crc32_reversed.
    apply lxor_u32; [apply fold_reversed; assumption | exact Hi]. }
  unfold calculate_crc32_reversed at 1.
  rewrite fold_left_app, reversed_four_bytes, (le_bytes_combine crc Hcrc).
  unfold crc, calculate_crc32_reversed. rewrite lxor_cancel_l. reflexivity.
Qed.

Lemma crc32_reversed_residue_witness :
  let crc := calculate_crc32_reversed check_input reversed_polynomial
               default_initial_value in
  calculate_crc32_reversed
    (check_input ++ [Z.land crc 255; Z.land (Z.shiftr crc 8) 255;
                     Z.land (Z.shiftr crc 16) 255; Z.land (Z.shiftr crc 24) 255])
    reversed_polynomial default_initial_value
  = Z.lxor (Nat.iter 32 (reversed_bit reversed_polynomial)
              default_initial_value) default_initial_value
  /\ Z.lxor (Nat.iter 32 (reversed_bit reversed_polynomial)
               default_initial_value) default_initial_value
     = 0x2144DF1C.
Proof.
  apply (crc32_reversed_residue check_input reversed_polynomial
           default_initial_value).
  - unfold is_bytes, check_input, is_byte. repeat constructor; lia.
  - unfold is_u32, reversed_polynomial. lia.
  - unfold is_u32, default_initial_value. lia.
Defined.

End Crc32Laws.

(** ** Header extractor and chunk scanner on framed input *)

Module PngLaws.
Import Png PngFacts.

Lemma bytes_eqb_eq (a : list Z) : forall b, bytes_eqb a b = true <-> a = b.
Proof.
  induction a as [|x a IH]; intros [|y b]; simpl;
    try (split; [discriminate | discriminate]).
  - split; reflexivity.
  - rewrite andb_true_iff, Z.eqb_eq, IH. split.
    + intros [-> ->]. reflexivity.
    + intros E. injection E as -> ->. split; reflexivity.
Qed.

(** X16: a buffer that does not start with the eight signature bytes is
    rejected by both entry points: [find_idat_chunks] returns the empty
    list and [get_png_ihdr_info] returns its failure value. *)
Theorem signature_required (data : list Z) (include_magic : bool) :
  firstn 8 data <> png_signature ->
  find_idat_chunks data include_magic = Some (Ok [])
  /\ get_png_ihdr_info data = Some None.
Proof.
  intros Hsig.
  assert (bytes_eqb (firstn 8 data) png_signature = false) as E.
  { destruct (bytes_eqb (firstn 8 data) png_signature) eqn:E; [|reflexivity].
    apply bytes_eqb_eq in E. contradiction. }
  unfold find_idat_chunks, find_idat_chunks_fuel, get_png_ihdr_info,
    get_png_ihdr_info_fuel, file_read.
  rewrite E. split; reflexivity.
Qed.

Lemma signature_required_witness :
  find_idat_chunks [71; 73; 70; 56; 57; 97; 1; 0; 1; 0; 73; 68; 65; 84] false
    = Some (Ok [])
  /\ get_png_ihdr_info [71; 73; 70; 56; 57; 97; 1; 0; 1; 0; 73; 68; 65; 84]
     = Some None.
Proof.
  apply (signature_required
           [71; 73; 70; 56; 57; 97; 1; 0; 1; 0; 73; 68; 65; 84] false).
  discriminate.
Defined.


(** Passes allowed beyond one per byte left do not change the result. *)
Lemma ihdr_loop_fuel :
  forall fuel1 fuel2 file,
    (length file < fuel1)%nat -> (length file < fuel2)%nat ->
    ihdr_loop fuel1 file = ihdr_loop fuel2 file.
Proof.
  induction fuel1 as [|fuel1 IH]; intros fuel2 file H1 H2; [lia|].
  destruct fuel2 as [|fuel2]; [lia|].
  rewrite !ihdr_loop_pass.
  destruct ((length (firstn 4 file) <? 4)%nat
            || (length (firstn 4 (skipn 4 file)) <? 4)%nat) eqn:Hshort;
    [reflexivity|].
  apply orb_false_elim in Hshort. destruct Hshort as [Hlen _].
  apply Nat.ltb_ge in Hlen. rewrite length_firstn in Hlen.
  destruct (unpack_I (firstn 4 file)) as [chunk_length|e]; [|reflexivity].
  destruct (bytes_eqb (firstn 4 (skipn 4 file)) IHDR); [reflexivity|].
  apply IH; rewrite !length_skipn; lia.
Qed.

Lemma skipn_length_app (a b : list Z) : skipn (length a) (a ++ b) = b.
Proof.
  rewrite skipn_app, skipn_all, Nat.sub_diag. reflexivity.
Qed.

(** X18: a chunk in front of the header is stepped over: when the chunk
    that follows the signature is not tagged IHDR and its payload and
    checksum (declared length plus four bytes) are in the buffer,
    [get_png_ihdr_info] returns what it returns on the buffer without that
    chunk. *)
Theorem get_png_ihdr_info_skips_chunk
    (l0 l1 l2 l3 t0 t1 t2 t3 : Z) (body rest : list Z) :
  [t0; t1; t2; t3] <> IHDR ->
  length body = Z.to_nat (be32 l0 l1 l2 l3 + 4) ->
  get_png_ihdr_info
    (png_signature ++ [l0; l1; l2; l3] ++ [t0; t1; t2; t3] ++ body ++ rest)
  = get_png_ihdr_info (png_signature ++ rest).
Proof.
  intros Htag Hbody.
  assert (bytes_eqb [t0; t1; t2; t3] IHDR = false) as E.
  { destruct (bytes_eqb [t0; t1; t2; t3] IHDR) eqn:E; [|reflexivity].
    apply bytes_eqb_eq in E. contradiction. }
  unfold get_png_ihdr_info, get_png_ihdr_info_fuel, file_read.
  change (firstn 8 (png_signature ++ ?t)) with png_signature.
  change (bytes_eqb png_signature png_signature) with true. cbn [negb].
  change (skipn 8 (png_signature ++ ?t)) with t.
  rewrite ihdr_loop_pass.
  cbn [app firstn skipn length Nat.ltb Nat.leb orb unpack_I].
  rewrite E, <- Hbody, skipn_length_app.
  apply ihdr_loop_fuel; unfold png_signature; rewrite ?length_app; simpl;
    rewrite ?length_app; lia.
Qed.

Lemma get_png_ihdr_info_skips_chunk_witness :
  get_png_ihdr_info
    (png_signature ++ [0; 0; 0; 2] ++ [116; 69; 88; 116]
       ++ [104; 105; 1; 2; 3; 4]
       ++ skipn 8 Samples.png_2x2_gray8)
  = get_png_ihdr_info (png_signature ++ skipn 8 Samples.png_2x2_gray8).
Proof.
  apply (get_png_ihdr_info_skips_chunk 0 0 0 2 116 69 88 116
           [104; 105; 1; 2; 3; 4] (skipn 8 Samples.png_2x2_gray8)).
  - discriminate.
  - reflexivity.
Defined.

(** *** Records returned by the scanner *)

Lemma starts_with_firstn pat :
  forall l, starts_with pat l = true -> firstn (length pat) l = pat.
Proof.
  induction pat as [|p pat IH]; intros l H; [reflexivity|].
  destruct l as [|x l]; [discriminate|]. simpl in H.
  apply andb_prop in H. destruct H as [Hx H]. apply Z.eqb_eq in Hx. subst x.
  simpl. rewrite (IH l H). reflexivity.
Qed.

Lemma find_in_sound pat :
  forall l pos i,
    find_in pat l pos = Some i ->
    starts_with pat (skipn (i - pos) l) = true.
Proof.
  induction l as [|x l IH]; intros pos i H; simpl in H.
  - destruct (starts_with pat []) eqn:E; [|discriminate].
    injection H as <-. rewrite Nat.sub_diag. exact E.
  - destruct (starts_with pat (x :: l)) eqn:E.
    + injection H as <-. rewrite Nat.sub_diag. exact E.
    + pose proof (find_in_bounds pat l (S pos) i H) as [Hle _].
      apply IH in H. replace (i - pos)%nat with (S (i - S pos)) by lia.
      exact H.
Qed.

(** A hit of [find] is an occurrence of the pattern. *)
Lemma bytes_find_sound data pat start :
  bytes_find data pat start <> -1 ->
  slice data (bytes_find data pat start)
    (bytes_find data pat start + Z.of_nat (length pat)) = pat.
Proof.
  unfold bytes_find.
  destruct (len data <? start); [intros H; contradiction H; reflexivity|].
  destruct (find_in pat (skipn (Z.to_nat start) data) (Z.to_nat start))
    as [i|] eqn:E; [|intros H; contradiction H; reflexivity].
  intros _. pose proof (find_in_bounds _ _ _ _ E) as [Hle _].
  apply find_in_sound in E. rewrite skipn_skipn in E.
  replace (i - Z.to_nat start + Z.to_nat start)%nat with i in E by lia.
  apply starts_with_firstn in E. unfold slice.
  replace (Z.to_nat (Z.of_nat i + Z.of_nat (length pat) - Z.of_nat i))
    with (length pat) by lia.
  rewrite Nat2Z.id. exact E.
Qed.

(** What a pass that extracts a record has found in the buffer. *)
Lemma scan_body_next_framed data include_magic idx idx' c :
  is_bytes data ->
  scan_body data include_magic idx = Next idx' c ->
  exists i n,
    idx <= i /\ 4 <= i /\ 0 <= n < 2 ^ 32
    /\ slice data i (i + 4) = IDAT
    /\ unpack_I (slice data (i - 4) i) = Ok n
    /\ idx' = i + 8 + n
    /\ idx' <= len data
    /\ fst c = slice data (if include_magic then i else i + 4) (i + 4 + n)
    /\ snd c = slice data (i + 4 + n) (i + 8 + n).
Proof.
  intros Hb. unfold scan_body.
  pose proof (bytes_find_bounds data IDAT idx) as Hfind.
  pose proof (bytes_find_sound data IDAT idx) as Hsound.
  set (i := bytes_find data IDAT idx) in *.
  destruct (Z.eqb_spec i (-1)) as [|Hi]; [discriminate|].
  destruct (Z.ltb_spec (i - 4) 0) as [|Hl]; [discriminate|].
  destruct (unpack_I (slice data (i - 4) i)) as [n|e] eqn:U; [|discriminate].
  pose proof (unpack_I_range _ _ (is_bytes_slice data (i - 4) i Hb) U) as Hn.
  destruct (i + 4 + n + 4 >? len data) eqn:G; [discriminate|].
  rewrite Z.gtb_ltb in G. apply Z.ltb_ge in G.
  intros E. injection E as <- <-. destruct (Hfind Hi) as (H1 & _ & _).
  exists i, n. cbn [fst snd].
  repeat match goal with |- _ /\ _ => split end;
    try lia; try reflexivity; try assumption.
  - apply (Hsound Hi).
  - destruct include_magic; reflexivity.
  - f_equal; lia.
Qed.

Lemma scan_loop_forall (P : chunk -> Prop) data include_magic :
  is_bytes data ->
  (forall idx idx' c, 8 <= idx ->
                      scan_body data include_magic idx = Next idx' c -> P c) ->
  forall fuel idx acc chunks,
    8 <= idx -> Forall P acc ->
    scan_loop fuel data include_magic idx acc = Some (Ok chunks) ->
    Forall P chunks.
Proof.
  intros Hb HP. induction fuel as [|fuel IH]; intros idx acc chunks Hidx Hacc E;
    [discriminate|].
  simpl in E. destruct (idx <? len data).
  - destruct (scan_body data include_magic idx) as [d|idx' c|e] eqn:Eb.
    + injection E as <-. exact Hacc.
    + pose proof (scan_body_next _ _ _ _ _ Hb Eb) as Hadv.
      apply (IH idx' (acc ++ [c]) chunks); [lia | | exact E].
      apply Forall_app. split; [exact Hacc|]. constructor; [|constructor].
      apply (HP idx idx' c Hidx Eb).
    + discriminate.
  - injection E as <-. exact Hacc.
Qed.

(** X19: every record [(chunk_data, crc32_bytes)] that [find_idat_chunks]
    returns is framed in the buffer: at some offset [i >= 8] the buffer
    holds the tag IDAT, the four bytes before it are the big-endian
    declared length [n], the record's data is the [n] bytes after the tag
    (preceded by the tag itself when [include_magic] is set), and the
    record's checksum is the four bytes after the data, all inside the
    buffer. *)
Theorem find_idat_chunks_framed
    (data : list Z) (include_magic : bool) (chunks : list chunk) :
  is_bytes data ->
  find_idat_chunks data include_magic = Some (Ok chunks) ->
  Forall
    (fun c =>
       exists i n,
         8 <= i /\ 0 <= n < 2 ^ 32
         /\ slice data i (i + 4) = IDAT
         /\ unpack_I (slice data (i - 4) i) = Ok n
         /\ i + 8 + n <= len data
         /\ fst c = slice data (if include_magic then i else i + 4) (i + 4 + n)
         /\ len (fst c) = (if include_magic then n + 4 else n)
         /\ snd c = slice data (i + 4 + n) (i + 8 + n)
         /\ len (snd c) = 4)
    chunks.
Proof.
  intros Hb E. unfold find_idat_chunks, find_idat_chunks_fuel in E.
  destruct (negb (bytes_eqb (firstn 8 data) png_signature));
    [injection E as <-; constructor|].
  apply (scan_loop_forall _ data include_magic Hb)
    with (fuel := S (length data)) (idx := 8) (acc := []);
    [ | lia | constructor | exact E].
  intros idx idx' c Hidx Eb.
  destruct (scan_body_next_framed _ _ _ _ _ Hb Eb)
    as (i & n & H1 & H2 & Hn & Htag & Hlen & -> & Hend & Hfst & Hsnd).
  exists i, n.
  repeat match goal with |- _ /\ _ => split end;
    try lia; try assumption.
  - rewrite Hfst. unfold len. rewrite length_slice by (destruct include_magic; lia).
    destruct include_magic; lia.
  - rewrite Hsnd. unfold len. rewrite length_slice by lia. lia.
Qed.

Lemma find_idat_chunks_framed_witness :
  Forall
    (fun c =>
       exists i n,
         8 <= i /\ 0 <= n < 2 ^ 32
         /\ slice Samples.png_truncated_idat i (i + 4) = IDAT
         /\ unpack_I (slice Samples.png_truncated_idat (i - 4) i) = Ok n
         /\ i + 8 + n <= len Samples.png_truncated_idat
         /\ fst c = slice Samples.png_truncated_idat
                      (if false then i else i + 4) (i + 4 + n)
         /\ len (fst c) = (if false then n + 4 else n)
         /\ snd c = slice Samples.png_truncated_idat (i + 4 + n) (i + 8 + n)
         /\ len (snd c) = 4)
    [([7], [182; 92; 176; 75])].
Proof.
  apply (find_idat_chunks_framed Samples.png_truncated_idat false).
  - repeat constructor; unfold is_byte; lia.
  - reflexivity.
Defined.

(** *** The scanner on a stream of framed IDAT chunks *)

Lemma find_in_eq pat l pos :
  find_in pat l pos
  = if starts_with pat l then Some pos
    else match l with
         | [] => None
         | _ :: l' => find_in pat l' (S pos)
         end.
Proof. destruct l; reflexivity. Qed.

Lemma find_in_none_shift pat :
  forall l pos pos', find_in pat l pos = None -> find_in pat l pos' = None.
Proof.
  induction l as [|x l IH]; intros pos pos' H; rewrite find_in_eq in H |- *.
  - destruct (starts_with pat []); [discriminate | reflexivity].
  - destruct (starts_with pat (x :: l)); [discriminate|].
    apply (IH (S pos)). exact H.
Qed.

Lemma starts_with_prefix pat :
  forall l1 l2,
    firstn (length pat) l1 = firstn (length pat) l2 ->
    starts_with pat l1 = starts_with pat l2.
Proof.
  induction pat as [|p pat IH]; intros l1 l2 H; [reflexivity|].
  destruct l1 as [|x1 l1], l2 as [|x2 l2]; simpl in H; try discriminate;
    [reflexivity|].
  injection H as -> H. simpl. rewrite (IH l1 l2 H). reflexivity.
Qed.

Lemma starts_with_self pat : forall rest, starts_with pat (pat ++ rest) = true.
Proof.
  induction pat as [|p pat IH]; intros rest; [reflexivity|].
  simpl. rewrite Z.eqb_refl. apply IH.
Qed.

(** If the pattern does not begin inside [before], also not with its end
    running into the pattern that follows, then the first occurrence in
    [before ++ pat ++ rest] is the one after [before]. *)
Lemma find_in_first pat rest :
  forall before pos,
    find_in pat (before ++ firstn (length pat - 1) pat) 0 = None ->
    find_in pat (before ++ pat ++ rest) pos = Some (pos + length before)%nat.
Proof.
  induction before as [|a before IH]; intros pos H.
  - simpl. rewrite find_in_eq, starts_with_self. f_equal. lia.
  - rewrite find_in_eq in H.
    destruct (starts_with pat ((a :: before) ++ firstn (length pat - 1) pat))
      eqn:E; [discriminate|].
    rewrite find_in_eq.
    rewrite (starts_with_prefix pat ((a :: before) ++ pat ++ rest)
               ((a :: before) ++ firstn (length pat - 1) pat)), E.
    + cbn [app]. rewrite (IH (S pos)).
      * f_equal. simpl. lia.
      * apply (find_in_none_shift pat _ 1%nat). exact H.
    + rewrite !firstn_app, firstn_firstn.
      replace (Nat.min (length pat - length (a :: before)) (length pat - 1))
        with (length pat - length (a :: before))%nat by (simpl; lia).
      replace (length pat - length (a :: before) - length pat)%nat
        with 0%nat by lia.
      rewrite firstn_O, app_nil_r. reflexivity.
Qed.

Lemma slice_mid (a b c : list Z) (i j : Z) :
  i = Z.of_nat (length a) ->
  j = Z.of_nat (length a + length b) ->
  slice (a ++ b ++ c) i j = b.
Proof.
  intros -> ->. unfold slice. rewrite Nat2Z.id, skipn_length_app.
  replace (Z.to_nat (Z.of_nat (length a + length b) - Z.of_nat (length a)))
    with (length b) by lia.
  rewrite firstn_app, firstn_all, Nat.sub_diag, firstn_O, app_nil_r.
  reflexivity.
Qed.

Lemma unpack_I_length l4 n : unpack_I l4 = Ok n -> length l4 = 4%nat.
Proof.
  destruct l4 as [|b0 [|b1 [|b2 [|b3 [|b4 l]]]]]; try discriminate.
  reflexivity.
Qed.

(** One pass over a framed chunk that is the first place where the tag
    occurs at or after the cursor. *)
Lemma scan_body_frame include_magic pre gap l4 payload crc rest :
  unpack_I l4 = Ok (len payload) ->
  length crc = 4%nat ->
  find_in IDAT (gap ++ l4 ++ [73; 68; 65]) 0 = None ->
  scan_body (pre ++ gap ++ l4 ++ IDAT ++ payload ++ crc ++ rest) include_magic
    (len pre)
  = Next (len (pre ++ gap ++ l4 ++ IDAT ++ payload ++ crc))
      ((if include_magic then IDAT else []) ++ payload, crc).
Proof.
  intros Hl4 Hcrc Hfirst.
  pose proof (unpack_I_length l4 _ Hl4) as Hlen4.
  set (data := pre ++ gap ++ l4 ++ IDAT ++ payload ++ crc ++ rest).
  assert (len data
          = len pre + len gap + 4 + 4 + len payload + 4 + len rest) as Hlen.
  { unfold data, len. rewrite !length_app, Hlen4, Hcrc. simpl. lia. }
  assert (bytes_find data IDAT (len pre) = len pre + len gap + 4) as Hfind.
  { unfold bytes_find.
    destruct (Z.ltb_spec (len data) (len pre)); [unfold len in *; lia|].
    unfold len at 1 2. rewrite Nat2Z.id. unfold data.
    rewrite skipn_length_app.
    replace (gap ++ l4 ++ IDAT ++ payload ++ crc ++ rest)
      with ((gap ++ l4) ++ IDAT ++ payload ++ crc ++ rest)
      by (rewrite <- app_assoc; reflexivity).
    rewrite find_in_first
      by (rewrite <- app_assoc; exact Hfirst).
    unfold len. rewrite length_app, Hlen4. lia. }
  unfold scan_body. rewrite Hfind.
  destruct (Z.eqb_spec (len pre + len gap + 4) (-1)) as [Hneg|_];
    [unfold len in Hneg; lia|].
  destruct (Z.ltb_spec (len pre + len gap + 4 - 4) 0) as [Hneg|_];
    [unfold len in Hneg; lia|].
  assert (slice data (len pre + len gap + 4 - 4) (len pre + len gap + 4) = l4)
    as ->.
  { unfold data.
    replace (pre ++ gap ++ l4 ++ IDAT ++ payload ++ crc ++ rest)
      with ((pre ++ gap) ++ l4 ++ IDAT ++ payload ++ crc ++ rest)
      by (rewrite <- app_assoc; reflexivity).
    apply slice_mid; unfold len; rewrite length_app; lia. }
  rewrite Hl4.
  destruct (Z.gtb_spec (len pre + len gap + 4 + 4 + len payload + 4) (len data))
    as [Hgt|_]; [unfold len in *; lia|].
  f_equal.
  - unfold len. rewrite !length_app, Hlen4, Hcrc. simpl. lia.
  - f_equal.
    + destruct include_magic.
      * unfold data.
        replace (pre ++ gap ++ l4 ++ IDAT ++ payload ++ crc ++ rest)
          with ((pre ++ gap ++ l4) ++ (IDAT ++ payload) ++ crc ++ rest)
          by (rewrite <- !app_assoc; reflexivity).
        apply slice_mid; unfold len; rewrite !length_app, ?Hlen4; simpl; lia.
      * unfold data.
        replace (pre ++ gap ++ l4 ++ IDAT ++ payload ++ crc ++ rest)
          with ((pre ++ gap ++ l4 ++ IDAT) ++ payload ++ crc ++ rest)
          by (rewrite <- !app_assoc; reflexivity).
        apply slice_mid; unfold len; rewrite !length_app, ?Hlen4; simpl; lia.
    + unfold data.
      replace (pre ++ gap ++ l4 ++ IDAT ++ payload ++ crc ++ rest)
        with ((pre ++ gap ++ l4 ++ IDAT ++ payload) ++ crc ++ rest)
        by (rewrite <- !app_assoc; reflexivity).
      apply slice_mid; unfold len; rewrite !length_app, ?Hlen4, ?Hcrc; simpl; lia.
Qed.

(** A pass over a remainder in which the tag does not occur leaves the
    loop. *)
Lemma scan_body_tail include_magic pre tail :
  find_in IDAT tail 0 = None ->
  scan_body (pre ++ tail) include_magic (len pre) = Break None.
Proof.
  intros Hnone. unfold scan_body.
  assert (bytes_find (pre ++ tail) IDAT (len pre) = -1) as ->.
  { unfold bytes_find. destruct (len (pre ++ tail) <? len pre); [reflexivity|].
    unfold len. rewrite Nat2Z.id, skipn_length_app.
    rewrite (find_in_none_shift IDAT tail 0%nat _ Hnone). reflexivity. }
  reflexivity.
Qed.

Lemma scan_loop_frames include_magic tail :
  find_in IDAT tail 0 = None ->
  forall (frames : list (list Z * list Z * list Z * list Z)) pre acc fuel,
    Forall (fun '(gap, l4, payload, crc) =>
              unpack_I l4 = Ok (len payload)
              /\ length crc = 4%nat
              /\ find_in IDAT (gap ++ l4 ++ [73; 68; 65]) 0 = None) frames ->
    (length (concat (map (fun '(gap, l4, payload, crc) =>
                            gap ++ l4 ++ IDAT ++ payload ++ crc) frames)
             ++ tail) < fuel)%nat ->
    scan_loop fuel
      (pre ++ concat (map (fun '(gap, l4, payload, crc) =>
                             gap ++ l4 ++ IDAT ++ payload ++ crc) frames)
           ++ tail)
      include_magic (len pre) acc
    = Some (Ok (acc ++ map (fun '(gap, l4, payload, crc) =>
                              ((if include_magic then IDAT else []) ++ payload,
                               crc)) frames)).
Proof.
  intros Htail. induction frames as [|[[[gap l4] payload] crc] frames IH];
    intros pre acc fuel Hok Hfuel.
  - cbn [map concat app] in *. destruct fuel as [|fuel]; [lia|].
    rewrite app_nil_r. cbn [scan_loop].
    destruct (len pre <? len (pre ++ tail)); [|reflexivity].
    rewrite scan_body_tail by exact Htail. reflexivity.
  - inversion Hok as [|f fs Hf Hrest]; subst.
    cbv beta iota in Hf. destruct Hf as (Hl4 & Hcrc & Hfirst).
    cbn [map concat] in *. destruct fuel as [|fuel]; [lia|].
    pose proof (unpack_I_length l4 _ Hl4) as Hlen4.
    set (rest := concat (map (fun '(gap0, l5, payload0, crc0) =>
                                gap0 ++ l5 ++ IDAT ++ payload0 ++ crc0) frames)
                 ++ tail) in *.
    replace (pre ++ ((gap ++ l4 ++ IDAT ++ payload ++ crc)
                     ++ concat (map (fun '(gap0, l5, payload0, crc0) =>
                                       gap0 ++ l5 ++ IDAT ++ payload0 ++ crc0)
                                  frames)) ++ tail)
      with (pre ++ gap ++ l4 ++ IDAT ++ payload ++ crc ++ rest)
      by (unfold rest; rewrite <- !app_assoc; reflexivity).
    cbn [scan_loop].
    replace (len pre <? len (pre ++ gap ++ l4 ++ IDAT ++ payload ++ crc ++ rest))
      with true
      by (symmetry; apply Z.ltb_lt; unfold len; rewrite !length_app, Hlen4; lia).
    rewrite scan_body_frame by assumption.
    replace (pre ++ gap ++ l4 ++ IDAT ++ payload ++ crc ++ rest)
      with ((pre ++ gap ++ l4 ++ IDAT ++ payload ++ crc) ++ rest)
      by (rewrite <- !app_assoc; reflexivity).
    unfold rest. rewrite IH.
    + rewrite <- app_assoc. reflexivity.
    + exact Hrest.
    + rewrite <- app_assoc in Hfuel. fold rest in Hfuel |- *.
      rewrite !length_app in Hfuel. rewrite Hlen4 in Hfuel. lia.
Qed.

Lemma scan_stream
    (frames : list (list Z * list Z * list Z * list Z)) (tail : list Z)
    (include_magic : bool) :
  Forall (fun '(gap, l4, payload, crc) =>
            unpack_I l4 = Ok (len payload)
            /\ length crc = 4%nat
            /\ find_in IDAT (gap ++ l4 ++ [73; 68; 65]) 0 = None) frames ->
  find_in IDAT tail 0 = None ->
  find_idat_chunks
    (png_signature
       ++ concat (map (fun '(gap, l4, payload, crc) =>
                         gap ++ l4 ++ IDAT ++ payload ++ crc) frames)
       ++ tail)
    include_magic
  = Some (Ok (map (fun '(gap, l4, payload, crc) =>
                     ((if include_magic then IDAT else []) ++ payload, crc))
                frames)).
Proof.
  intros Hok Htail. unfold find_idat_chunks, find_idat_chunks_fuel.
  change (firstn 8 (png_signature ++ ?t)) with png_signature.
  change (bytes_eqb png_signature png_signature) with true. cbn [negb].
  change 8 with (len png_signature).
  rewrite (scan_loop_frames include_magic tail Htail frames png_signature []).
  - reflexivity.
  - exact Hok.
  - rewrite (length_app png_signature). simpl. lia.
Qed.

(** X20: on a buffer made of the signature, a sequence of IDAT chunks
    (each a big-endian length field, the tag IDAT, as many payload bytes as
    the length field declares and four checksum bytes), possibly with other
    bytes in front of a chunk, and a remainder, [find_idat_chunks] returns
    exactly their payloads (preceded by the tag when [include_magic] is
    set) and checksums, in stream order, provided the tag IDAT begins
    nowhere else: not in the bytes in front of a chunk or in its length
    field, and not in the remainder. *)
Theorem find_idat_chunks_framed_stream
    (frames : list (list Z * list Z * list Z * list Z)) (tail : list Z)
    (include_magic : bool) :
  Forall (fun '(gap, l4, payload, crc) =>
            unpack_I l4 = Ok (len payload)
            /\ length crc = 4%nat
            /\ find_in IDAT (gap ++ l4 ++ [73; 68; 65]) 0 = None) frames ->
  find_in IDAT tail 0 = None ->
  find_idat_chunks
    (png_signature
       ++ concat (map (fun '(gap, l4, payload, crc) =>
                         gap ++ l4 ++ IDAT ++ payload ++ crc) frames)
       ++ tail)
    include_magic
  = Some (Ok (map (fun '(gap, l4, payload, crc) =>
                     ((if include_magic then IDAT else []) ++ payload, crc))
                frames)).
Proof. intros Hok Htail. apply scan_stream; assumption. Qed.

Lemma find_idat_chunks_framed_stream_witness :
  find_idat_chunks
    (png_signature
       ++ concat (map (fun '(gap, l4, payload, crc) =>
                         gap ++ l4 ++ IDAT ++ payload ++ crc)
                    [(skipn 8 Samples.png_2x2_gray8, [0; 0; 0; 2], [120; 156],
                      [1; 2; 3; 4]);
                     ([], [0; 0; 0; 1], [99], [5; 6; 7; 8])])
       ++ [0; 0; 0; 0; 73; 69; 78; 68; 174; 66; 96; 130])
    true
  = Some (Ok (map (fun '(gap, l4, payload, crc) =>
                     ((if true then IDAT else []) ++ payload, crc))
                [(skipn 8 Samples.png_2x2_gray8, [0; 0; 0; 2], [120; 156],
                  [1; 2; 3; 4]);
                 ([], [0; 0; 0; 1], [99], [5; 6; 7; 8])])).
Proof.
  apply (find_idat_chunks_framed_stream
           [(skipn 8 Samples.png_2x2_gray8, [0; 0; 0; 2], [120; 156],
             [1; 2; 3; 4]);
            ([], [0; 0; 0; 1], [99], [5; 6; 7; 8])]
           [0; 0; 0; 0; 73; 69; 78; 68; 174; 66; 96; 130] true).
  - repeat constructor.
  - reflexivity.
Defined.

Lemma scan_loop_size data include_magic :
  is_bytes data ->
  forall fuel idx acc chunks,
    8 <= idx <= len data ->
    Z.of_nat (list_sum (map (fun c : chunk =>
                               (length (fst c) + length (snd c))%nat) acc))
    <= idx - 8 ->
    scan_loop fuel data include_magic idx acc = Some (Ok chunks) ->
    Z.of_nat (list_sum (map (fun c : chunk =>
                               (length (fst c) + length (snd c))%nat) chunks))
    <= len data - 8.
Proof.
  intros Hb. induction fuel as [|fuel IH]; intros idx acc chunks Hidx Hacc E;
    [discriminate|].
  simpl in E. destruct (idx <? len data).
  - destruct (scan_body data include_magic idx) as [d|idx' c|e] eqn:Eb.
    + injection E as <-. lia.
    + destruct (scan_body_next_framed _ _ _ _ _ Hb Eb)
        as (i & n & H1 & H2 & Hn & _ & _ & Hend & Hle & Hfst & Hsnd).
      apply (IH idx' (acc ++ [c]) chunks); [lia | | exact E].
      rewrite map_app, list_sum_app. cbn [map list_sum].
      rewrite Hfst, Hsnd.
      rewrite !length_slice by (destruct include_magic; lia).
      change (list_sum [?x]) with (x + 0)%nat.
      destruct include_magic; lia.
    + discriminate.
  - injection E as <-. lia.
Qed.

(** X21: the records of [find_idat_chunks] are cut from disjoint parts of
    the buffer after the signature: the lengths of all returned data and
    checksums add up to at most the length of the buffer minus eight. *)
Theorem find_idat_chunks_size
    (data : list Z) (include_magic : bool) (chunks : list chunk) :
  is_bytes data ->
  find_idat_chunks data include_magic = Some (Ok chunks) ->
  (list_sum (map (fun c : chunk => length (fst c) + length (snd c)) chunks)
   <= length data - 8)%nat.
Proof.
  intros Hb E. unfold find_idat_chunks, find_idat_chunks_fuel in E.
  destruct (bytes_eqb (firstn 8 data) png_signature) eqn:Hsig; cbn [negb] in E;
    [|injection E as <-; simpl; lia].
  apply bytes_eqb_eq in Hsig.
  assert (8 <= length data)%nat as Hlen.
  { pose proof (f_equal (@length Z) Hsig) as H.
    rewrite length_firstn in H. change (length png_signature) with 8%nat in H.
    lia. }
  apply (scan_loop_size data include_magic Hb) in E;
    [unfold len in E; lia | unfold len; lia | simpl; lia].
Qed.

Lemma find_idat_chunks_size_witness :
  (list_sum (map (fun c : chunk => length (fst c) + length (snd c))
               [([7%Z], [182; 92; 176; 75]%Z)])
   <= length Samples.png_truncated_idat - 8)%nat.
Proof.
  apply (find_idat_chunks_size Samples.png_truncated_idat false).
  - repeat constructor; unfold is_byte; lia.
  - reflexivity.
Defined.

End PngLaws.

(** ** CRC engine: the two bit orders *)

Module Crc32BitOrder.
Import Crc32 Crc32Facts Crc32Laws BitOrder.

Lemma testbit_low_bit x n :
  0 <= n -> Z.testbit (Z.land x 1) n = (n =? 0) && Z.testbit x 0.
Proof.
  intros Hn. rewrite Z.land_spec. change 1 with (2 ^ 0).
  rewrite Z.pow2_bits_eqb by lia.
  destruct (Z.eqb_spec 0 n) as [<-|Hne].
  - rewrite andb_true_r. reflexivity.
  - rewrite andb_false_r. destruct (Z.eqb_spec n 0); [lia | reflexivity].
Qed.

Lemma reflect_spec width :
  forall x n,
    0 <= n ->
    Z.testbit (reflect width x) n
    = (n <? Z.of_nat width) && Z.testbit x (Z.of_nat width - 1 - n).
Proof.
  induction width as [|w IH]; intros x n Hn.
  - simpl. rewrite Z.bits_0. destruct (Z.ltb_spec n 0); [lia | reflexivity].
  - cbn [reflect]. rewrite Z.lor_spec, IH by exact Hn.
    destruct (Z.leb_spec (Z.of_nat w) n) as [Hge|Hlt].
    + rewrite Z.shiftl_spec, testbit_low_bit by lia.
      destruct (Z.ltb_spec n (Z.of_nat w)); [lia|]. cbn [andb orb].
      rewrite orb_false_r.
      destruct (Z.eqb_spec (n - Z.of_nat w) 0) as [E|Hne].
      * replace (Z.of_nat (S w) - 1 - n) with 0 by lia.
        destruct (Z.ltb_spec n (Z.of_nat (S w))); [reflexivity | lia].
      * destruct (Z.ltb_spec n (Z.of_nat (S w))); [lia | reflexivity].
    + rewrite Z.shiftl_spec_low by lia. cbn [orb].
      destruct (Z.ltb_spec n (Z.of_nat w)); [|lia].
      destruct (Z.ltb_spec n (Z.of_nat (S w))); [|lia]. cbn [andb].
      rewrite Z.shiftr_spec by lia. f_equal. lia.
Qed.

Lemma reflect_lxor width x y :
  reflect width (Z.lxor x y) = Z.lxor (reflect width x) (reflect width y).
Proof.
  apply Z.bits_inj'. intros n Hn.
  rewrite Z.lxor_spec, !reflect_spec, Z.lxor_spec by exact Hn.
  destruct (n <? Z.of_nat width); [reflexivity|].
  cbn [andb]. reflexivity.
Qed.

Lemma reflect32_mask32 x : reflect 32 (mask32 x) = reflect 32 x.
Proof.
  apply Z.bits_inj'. intros n Hn. rewrite !reflect_spec by exact Hn.
  destruct (Z.ltb_spec n (Z.of_nat 32)) as [Hlt|]; [|reflexivity]. cbn [andb].
  unfold mask32. rewrite Z.land_spec. change 0xFFFFFFFF with (Z.ones 32).
  rewrite Z.testbit_ones_nonneg by lia.
  destruct (Z.ltb_spec (Z.of_nat 32 - 1 - n) 32); [|lia].
  apply andb_true_r.
Qed.

Lemma reflect32_shiftl1 x :
  reflect 32 (Z.shiftl x 1) = Z.shiftr (reflect 32 x) 1.
Proof.
  apply Z.bits_inj'. intros n Hn.
  rewrite Z.shiftr_spec, !reflect_spec by lia.
  destruct (Z.ltb_spec n (Z.of_nat 32)) as [Hlt|Hge];
    destruct (Z.ltb_spec (n + 1) (Z.of_nat 32)) as [Hlt'|Hge'];
    try lia; cbn [andb]; try reflexivity.
  - rewrite Z.shiftl_spec by lia. f_equal. lia.
  - apply Z.shiftl_spec_low. lia.
Qed.

Lemma reflect32_top_byte b : reflect 32 (Z.shiftl b 24) = reflect 8 b.
Proof.
  apply Z.bits_inj'. intros n Hn. rewrite !reflect_spec by exact Hn.
  destruct (Z.ltb_spec n (Z.of_nat 8)) as [Hlt|Hge].
  - destruct (Z.ltb_spec n (Z.of_nat 32)); [|lia]. cbn [andb].
    rewrite Z.shiftl_spec by lia. f_equal. lia.
  - destruct (Z.ltb_spec n (Z.of_nat 32)); [|reflexivity]. cbn [andb].
    apply Z.shiftl_spec_low. lia.
Qed.

(** One shift of the forward register, seen in opposite bit order, is one
    shift of the reflected register. *)
Lemma reflect32_standard_bit p x :
  reflect 32 (standard_bit p x) = reversed_bit (reflect 32 p) (reflect 32 x).
Proof.
  unfold standard_bit, reversed_bit.
  rewrite truthy_top_bit, truthy_low_bit, reflect_spec by lia.
  change (0 <? Z.of_nat 32) with true. cbn [andb].
  change (Z.of_nat 32 - 1 - 0) with 31.
  destruct (Z.testbit x 31).
  - rewrite reflect_lxor, reflect32_shiftl1. reflexivity.
  - apply reflect32_shiftl1.
Qed.

Lemma reflect32_standard_iter p n x :
  reflect 32 (Nat.iter n (standard_bit p) x)
  = Nat.iter n (reversed_bit (reflect 32 p)) (reflect 32 x).
Proof.
  induction n as [|n IH]; [reflexivity|].
  rewrite !Nat.iter_succ, reflect32_standard_bit, IH. reflexivity.
Qed.

Lemma reflect32_standard_byte p c b :
  reflect 32 (standard_byte p c b)
  = reversed_byte (reflect 32 p) (reflect 32 c) (reflect 8 b).
Proof.
  unfold standard_byte, reversed_byte.
  fold (mask32 (Nat.iter 8 (standard_bit p) (Z.lxor c (Z.shiftl b 24)))).
  rewrite reflect32_mask32, reflect32_standard_iter, reflect_lxor,
    reflect32_top_byte.
  reflexivity.
Qed.

Lemma fold_left_step {A B : Type} (f : A -> B -> A) (b : B) (l : list B) (a : A) :
  fold_left f (b :: l) a = fold_left f l (f a b).
Proof. reflexivity. Qed.

Lemma reflect32_fold_standard p data :
  forall c,
    reflect 32 (fold_left (standard_byte p) data c)
    = fold_left (reversed_byte (reflect 32 p)) (map (reflect 8) data)
        (reflect 32 c).
Proof.
  induction data as [|b data IH]; intros c; [reflexivity|].
  rewrite map_cons, !fold_left_step, IH, reflect32_standard_byte.
  reflexivity.
Qed.

Lemma reflect32_default_polynomial :
  reflect 32 standard_polynomial = reversed_polynomial.
Proof. vm_compute. reflexivity. Qed.

Lemma reflect32_default_initial_value :
  reflect 32 default_initial_value = default_initial_value.
Proof. vm_compute. reflexivity. Qed.

(** X22: the two modes are one computation in two bit orders: the
    forward checksum, with its 32 bits put in opposite order, is the
    reflected checksum of the same message with the bits of every byte, of
    the polynomial and of the initial value put in opposite order. The
    default polynomial and initial value of [calculate_crc32_reversed] are
    those of [calculate_crc32_standard] in opposite bit order. *)
Theorem crc32_standard_reflects (data : list Z) (polynomial initial_value : Z) :
  reflect 32 (calculate_crc32_standard data polynomial initial_value)
  = calculate_crc32_reversed (map (reflect 8) data)
      (reflect 32 polynomial) (reflect 32 initial_value)
  /\ reflect 32 standard_polynomial = reversed_polynomial
  /\ reflect 32 default_initial_value = default_initial_value.
Proof.
  split; [|split].
  - unfold calculate_crc32_standard, calculate_crc32_reversed.
    rewrite reflect_lxor, reflect32_fold_standard. reflexivity.
  - exact reflect32_default_polynomial.
  - exact reflect32_default_initial_value.
Qed.

End Crc32BitOrder.

(** ** From the scanner to the decompressor *)

Module PipelineLaws.
Import Png Pipeline.

(** X23: on a buffer of framed IDAT chunks (as in X20), what
    [decompress_idat_chunks] hands to the decompressor after
    [find_idat_chunks] is the concatenation of the payloads in stream
    order, without length fields, tags and checksums; its result is the
    decompressor's. *)
Theorem decompress_idat_chunks_framed_stream
    (zlib_decompress : list Z -> option (list Z))
    (frames : list (list Z * list Z * list Z * list Z)) (tail : list Z) :
  Forall (fun '(gap, l4, payload, crc) =>
            unpack_I l4 = Ok (len payload)
            /\ length crc = 4%nat
            /\ find_in IDAT (gap ++ l4 ++ [73; 68; 65]) 0 = None) frames ->
  find_in IDAT tail 0 = None ->
  exists idat_chunks,
    find_idat_chunks
      (png_signature
         ++ concat (map (fun '(gap, l4, payload, crc) =>
                           gap ++ l4 ++ IDAT ++ payload ++ crc) frames)
         ++ tail)
      false = Some (Ok idat_chunks)
    /\ decompress_idat_chunks zlib_decompress idat_chunks
       = zlib_decompress
           (concat (map (fun '(gap, l4, payload, crc) => payload) frames)).
Proof.
  intros Hok Htail. eexists. split.
  - apply PngLaws.scan_stream; assumption.
  - unfold decompress_idat_chunks. cbv zeta. rewrite map_map.
    replace (map (fun x : list Z * list Z * list Z * list Z =>
                    let '(chunk, _) :=
                      let '(_, _, payload, crc) := x in ([] ++ payload, crc) in
                    chunk) frames)
      with (map (fun '(gap, l4, payload, crc) => payload) frames).
    + destruct (zlib_decompress _); reflexivity.
    + apply map_ext. intros [[[gap l4] payload] crc]. reflexivity.
Qed.

Lemma decompress_idat_chunks_framed_stream_witness :
  exists idat_chunks,
    find_idat_chunks
      (png_signature
         ++ concat (map (fun '(gap, l4, payload, crc) =>
                           gap ++ l4 ++ IDAT ++ payload ++ crc)
                      [(skipn 8 Samples.png_2x2_gray8, [0; 0; 0; 2],
                        [120; 156], [1; 2; 3; 4]);
                       ([], [0; 0; 0; 1], [99], [5; 6; 7; 8])])
         ++ [0; 0; 0; 0; 73; 69; 78; 68; 174; 66; 96; 130])
      false = Some (Ok idat_chunks)
    /\ decompress_idat_chunks (fun d => Some d) idat_chunks
       = (fun d => Some d)
           (concat (map (fun '(gap, l4, payload, crc) => payload)
                      [(skipn 8 Samples.png_2x2_gray8, [0; 0; 0; 2],
                        [120; 156], [1; 2; 3; 4]);
                       ([], [0; 0; 0; 1], [99], [5; 6; 7; 8])])).
Proof.
  apply (decompress_idat_chunks_framed_stream (fun d => Some d)
           [(skipn 8 Samples.png_2x2_gray8, [0; 0; 0; 2], [120; 156],
             [1; 2; 3; 4]);
            ([], [0; 0; 0; 1], [99], [5; 6; 7; 8])]
           [0; 0; 0; 0; 73; 69; 78; 68; 174; 66; 96; 130]).
  - repeat constructor.
  - reflexivity.
Defined.

End PipelineLaws.
